(** * Boksy: a table and secondary-index layer over Deno.Kv

    Shallow embedding of the [Database] class of [db.ts] (create_entry,
    update_entry, get_entry, get_all_entries, create_index,
    create_indexes_for_entry, get_entries_by_index, get_entry_by_index)
    over an executable model of the ordered key-value store it drives.

    Conventions of the embedding:
    - a JavaScript value is a term of [value]; only own data properties of
      plain objects are modelled (no prototype chain, no getters), a
      JavaScript number is an integer, typed arrays and symbols are left out;
    - the store is a list of bindings kept in key order, so a prefix scan
      returns its bindings in the order [Deno.Kv.list] does; as [Deno.Kv]
      does, it refuses with a [TypeError] a key part that is not a string,
      a number, a bigint or a boolean ([undefined] among them);
    - every [await]ed store call is one step of a state-and-exception monad;
      a commit that has happened stays in the store when a later call throws;
    - [ulid()] and [new Date()] are the only sources of non-determinism, and
      their results are parameters of [create_entry]. *)

From Stdlib Require Import ZArith List String Ascii Bool Lia.
From Stdlib Require Import Sorted OrdersEx DecimalString RelationClasses.
Import ListNotations.

Set Implicit Arguments.
Open Scope string_scope.
Open Scope list_scope.

(** ** JavaScript values *)

Module Js.

#[warnings="-register-all"]
Inductive value : Type :=
| VUndefined
| VNull
| VBool (b : bool)
| VNumber (n : Z)
| VBigInt (n : Z)
| VString (s : string)
| VDate (ms : Z)
| VObject (fields : list (string * value)).

(** A plain object: its own properties in insertion order. *)
Definition object := list (string * value).

(** [ToBoolean]: what [if (key)] tests. *)
Definition truthy (v : value) : bool :=
  match v with
  | VUndefined | VNull => false
  | VBool b => b
  | VNumber n | VBigInt n => negb (Z.eqb n 0)
  | VString s => negb (String.eqb s "")
  | VDate _ | VObject _ => true
  end.

(** [o[f]] on an object: the property, or [undefined]. *)
Fixpoint obj_get (o : object) (f : string) : value :=
  match o with
  | [] => VUndefined
  | (g, v) :: o' => if String.eqb f g then v else obj_get o' f
  end.

(** [o[f] = v]: an existing property keeps its place. *)
Fixpoint obj_set (o : object) (f : string) (v : value) : object :=
  match o with
  | [] => [(f, v)]
  | (g, w) :: o' =>
      if String.eqb f g then (g, v) :: o' else (g, w) :: obj_set o' f v
  end.

(** [{ ...o, ...extra }]: the properties of [extra] are assigned in order. *)
Definition spread (o extra : object) : object :=
  fold_left (fun acc p => obj_set acc (fst p) (snd p)) extra o.

(** [ToPropertyKey] for the primitives that can also be a part of a key. *)
Definition to_property_key (v : value) : string :=
  match v with
  | VString s => s
  | VNumber n | VBigInt n => NilEmpty.string_of_int (Z.to_int n)
  | VBool true => "true"
  | VBool false => "false"
  | VUndefined => "undefined"
  | VNull => "null"
  | VDate _ | VObject _ => "[object Object]"
  end.

End Js.
Import Js.

(** ** The ordered key-value store *)

Module Kv.

(** [Deno.KvKeyPart]. *)
Inductive KeyPart : Type :=
| KString (s : string)
| KNumber (n : Z)
| KBigInt (n : Z)
| KBool (b : bool).

Definition Key := list KeyPart.

(** The store orders parts by type first: string, number, bigint, boolean. *)
Definition rank (p : KeyPart) : nat :=
  match p with
  | KString _ => 0
  | KNumber _ => 1
  | KBigInt _ => 2
  | KBool _ => 3
  end.

Definition bool_compare (a b : bool) : comparison :=
  match a, b with
  | false, true => Lt
  | true, false => Gt
  | _, _ => Eq
  end.

Definition part_compare (a b : KeyPart) : comparison :=
  match a, b with
  | KString x, KString y => String_as_OT.compare x y
  | KNumber x, KNumber y => Z.compare x y
  | KBigInt x, KBigInt y => Z.compare x y
  | KBool x, KBool y => bool_compare x y
  | _, _ => Nat.compare (rank a) (rank b)
  end.

(** Keys compare part by part; a proper prefix comes first. *)
Fixpoint key_compare (a b : Key) : comparison :=
  match a, b with
  | [], [] => Eq
  | [], _ :: _ => Lt
  | _ :: _, [] => Gt
  | x :: a', y :: b' =>
      match part_compare x y with
      | Eq => key_compare a' b'
      | c => c
      end
  end.

Definition key_lt (a b : Key) : Prop := key_compare a b = Lt.

Definition key_eqb (a b : Key) : bool :=
  match key_compare a b with Eq => true | _ => false end.

(** The store rejects a key part that is not a string, number, bigint or
    boolean ([TypeError]); [None] stands for that rejection. *)
Definition to_key_part (v : value) : option KeyPart :=
  match v with
  | VString s => Some (KString s)
  | VNumber n => Some (KNumber n)
  | VBigInt n => Some (KBigInt n)
  | VBool b => Some (KBool b)
  | VUndefined | VNull | VDate _ | VObject _ => None
  end.

Fixpoint to_key (raw : list value) : option Key :=
  match raw with
  | [] => Some []
  | v :: raw' =>
      match to_key_part v, to_key raw' with
      | Some p, Some k => Some (p :: k)
      | _, _ => None
      end
  end.

(** [Deno.KvEntry] without its versionstamp: presence is all the code tests. *)
Definition KvEntry : Type := Key * value.

Definition Store := list KvEntry.

Definition empty : Store := [].

Fixpoint store_get (k : Key) (s : Store) : option value :=
  match s with
  | [] => None
  | (k', v) :: s' => if key_eqb k k' then Some v else store_get k s'
  end.

Fixpoint store_set (k : Key) (v : value) (s : Store) : Store :=
  match s with
  | [] => [(k, v)]
  | (k', v') :: s' =>
      match key_compare k k' with
      | Lt => (k, v) :: s
      | Eq => (k, v) :: s'
      | Gt => (k', v') :: store_set k v s'
      end
  end.

Fixpoint store_delete (k : Key) (s : Store) : Store :=
  match s with
  | [] => []
  | (k', v') :: s' =>
      if key_eqb k k' then store_delete k s' else (k', v') :: store_delete k s'
  end.

(** A prefix selector matches the keys that extend the prefix properly. *)
Fixpoint has_prefix (p k : Key) : bool :=
  match p, k with
  | [], [] => false
  | [], _ :: _ => true
  | _ :: _, [] => false
  | x :: p', y :: k' =>
      match part_compare x y with
      | Eq => has_prefix p' k'
      | _ => false
      end
  end.

Definition take_limit (limit : option positive) (l : list KvEntry) :=
  match limit with
  | None => l
  | Some n => firstn (Pos.to_nat n) l
  end.

Definition store_list (p : Key) (limit : option positive) (s : Store)
  : list KvEntry :=
  take_limit limit (filter (fun e => has_prefix p (fst e)) s).

(** The bindings are in strictly increasing key order. *)
Definition sorted (s : Store) : Prop := Sorted key_lt (map fst s).

End Kv.
Import Kv.

(** ** Store calls as monadic steps *)

Inductive error : Type := TypeError | NotFound.

Inductive outcome (A : Type) : Type :=
| Ok (a : A)
| Throw (e : error).

Arguments Ok {A} a.
Arguments Throw {A} e.

Definition M (A : Type) : Type := Store -> outcome A * Store.

Definition ret {A} (a : A) : M A := fun s => (Ok a, s).

Definition throw {A} (e : error) : M A := fun s => (Throw e, s).

Definition bind {A B} (m : M A) (k : A -> M B) : M B :=
  fun s =>
    match m s with
    | (Ok a, s') => k a s'
    | (Throw e, s') => (Throw e, s')
    end.

Declare Scope kv_scope.
Delimit Scope kv_scope with kv.
Notation "x <- c ;; k" := (bind c (fun x => k))
  (at level 61, c at next level, right associativity) : kv_scope.
Notation "c ;; k" := (bind c (fun _ => k))
  (at level 61, right associativity) : kv_scope.
Open Scope kv_scope.

(** [for (const x of l) { await body(x) }] *)
Fixpoint for_each {A} (l : list A) (body : A -> M unit) : M unit :=
  match l with
  | [] => ret tt
  | x :: l' => body x ;; for_each l' body
  end.

(** [Array.fromAsync(l, f)] *)
Fixpoint from_async {A B} (l : list A) (f : A -> M B) : M (list B) :=
  match l with
  | [] => ret []
  | x :: l' => y <- f x ;; ys <- from_async l' f ;; ret (y :: ys)
  end.

(** [kv.get(key)] *)
Definition kv_get (key : list value) : M (option KvEntry) :=
  fun s =>
    match to_key key with
    | None => (Throw TypeError, s)
    | Some k => (Ok (option_map (pair k) (store_get k s)), s)
    end.

(** [kv.set(key, v)] and [kv.atomic().set(key, v).commit()] *)
Definition kv_set (key : list value) (v : value) : M unit :=
  fun s =>
    match to_key key with
    | None => (Throw TypeError, s)
    | Some k => (Ok tt, store_set k v s)
    end.

(** [kv.delete(key)] *)
Definition kv_delete (key : list value) : M unit :=
  fun s =>
    match to_key key with
    | None => (Throw TypeError, s)
    | Some k => (Ok tt, store_delete k s)
    end.

(** [kv.list({ prefix }, { limit })], collected *)
Definition kv_list (prefix : list value) (limit : option positive)
  : M (list KvEntry) :=
  fun s =>
    match to_key prefix with
    | None => (Throw TypeError, s)
    | Some p => (Ok (store_list p limit s), s)
    end.

(** [v[f]] on a value read back from the store. *)
Definition get_prop (v : value) (f : string) : M value :=
  match v with
  | VObject o => ret (obj_get o f)
  | VUndefined | VNull => throw TypeError
  | _ => ret VUndefined
  end.

(** ** The [Database] class *)

Definition marker_key (table_name secondary_key : string) : list value :=
  [VString "__indexes_for"; VString table_name; VString secondary_key].

(** The key of one index entry, as [create_index] and
    [create_indexes_for_entry] build it. *)
Definition index_key (table_name : string)
  (secondary_key secondary_key_value id : value) : list value :=
  [VString "__indexes"; VString table_name; secondary_key;
   secondary_key_value; id].

Definition get_from_key (key : list value) : M (option KvEntry) :=
  kv_get key.

Definition get_entry_full (table_name : string) (id : value)
  : M (option KvEntry) :=
  get_from_key [VString table_name; id].

(** [(await this.get_from_key(...))?.value] *)
Definition get_entry (table_name : string) (id : value) : M value :=
  entry <- get_from_key [VString table_name; id] ;;
  ret match entry with
      | Some e => snd e
      | None => VUndefined
      end.

Definition get_all_from_key (key : list value) (limit : option positive)
  : M (list KvEntry) :=
  kv_list key limit.

Definition get_all_entries_full (table_name : string)
  (limit : option positive) : M (list KvEntry) :=
  kv_list [VString table_name] limit.

Definition get_all_entries (table_name : string) (limit : option positive)
  : M (list value) :=
  entries <- kv_list [VString table_name] limit ;;
  ret (map snd entries).

Definition create_indexes_for_entry (table_name : string) (value : object)
  : M unit :=
  indexes_to_create <- kv_list [VString "__indexes_for"; VString table_name]
                               None ;;
  for_each indexes_to_create (fun secondary_key =>
    let secondary_key_value :=
      obj_get value (to_property_key (snd secondary_key)) in
    kv_set (index_key table_name (snd secondary_key) secondary_key_value
                      (obj_get value "id"))
           (obj_get value "id")).

Definition create_index (table_name secondary_key : string) : M unit :=
  registered <- get_from_key (marker_key table_name secondary_key) ;;
  match registered with
  | Some _ => ret tt
  | None =>
      kv_set (marker_key table_name secondary_key) (VString secondary_key) ;;
      entries <- get_all_entries table_name None ;;
      for_each entries (fun entry =>
        key <- get_prop entry secondary_key ;;
        if truthy key then
          id <- get_prop entry "id" ;;
          kv_set (index_key table_name (VString secondary_key) key id) id
        else ret tt)
  end.

(** [id] is what [ulid()] returned and [date_created] what [new Date()] did. *)
Definition create_entry (table_name : string) (value : object)
  (id : string) (date_created : Z) : M object :=
  let entry :=
    spread [("id", VString id); ("date_created", VDate date_created)] value in
  kv_set [VString table_name; VString id] (VObject entry) ;;
  create_indexes_for_entry table_name entry ;;
  ret entry.

Definition update_entry (table_name : string) (entry : object) : M unit :=
  kv_set [VString table_name; obj_get entry "id"] (VObject entry) ;;
  create_indexes_for_entry table_name entry.

Definition get_entries_by_index (table_name secondary_key : string)
  (secondary_key_value : value) : M (list value) :=
  entries <- get_all_from_key
               [VString "__indexes"; VString table_name;
                VString secondary_key; secondary_key_value] None ;;
  from_async entries (fun entry => get_entry table_name (snd entry)).

Definition get_entry_by_index (table_name secondary_key : string)
  (secondary_key_value : value) : M value :=
  entries <- get_all_from_key
               [VString "__indexes"; VString table_name;
                VString secondary_key; secondary_key_value] None ;;
  get_entry table_name
    match entries with
    | e :: _ => snd e
    | [] => VUndefined
    end.

(** The constructor's [#init_indexes], its calls taken one after the other. *)
Definition init_indexes (indexes : list (string * list string)) : M unit :=
  for_each indexes (fun ti =>
    for_each (snd ti) (fun secondary_key =>
      create_index (fst ti) secondary_key)).

(** ** Which bindings a computation may write *)

(** [writes_only Q s s']: every binding of [s'] is the one [s] has, or is a
    pair that [Q] allows. *)
Definition writes_only (Q : Key -> value -> Prop) (s s' : Store) : Prop :=
  forall k, store_get k s' = store_get k s \/
            exists v, store_get k s' = Some v /\ Q k v.

Definition touches {A} (Q : Key -> value -> Prop) (m : M A) : Prop :=
  forall s, writes_only Q s (snd (m s)).

(** No step of the class raises [NotFound]. *)
Definition never_not_found {A} (m : M A) : Prop :=
  forall s, fst (m s) <> Throw NotFound.

(** ** Index entries *)

Definition marker (table_name secondary_key : string) : Key :=
  [KString "__indexes_for"; KString table_name; KString secondary_key].

(** The index on [secondary_key] of [table_name] is registered in [s]. *)
Definition registered (table_name secondary_key : string) (s : Store) : Prop :=
  store_get (marker table_name secondary_key) s <> None.

(** [k |-> v] is an index entry of [table_name]: five parts under
    ["__indexes"], and the value is the key's last part. *)
Definition index_entry (table_name : string) (k : Key) (v : value) : Prop :=
  exists f fv id,
    k = [KString "__indexes"; KString table_name; f; fv; id] /\
    to_key_part v = Some id.

(** The registered index fields of a table, as [create_indexes_for_entry]
    lists them. *)
Definition indexes_of (table_name : string) (s : Store) : list value :=
  map snd (store_list [KString "__indexes_for"; KString table_name] None s).

(** The key of the index entry of record [o] for the registered field [m],
    as [create_indexes_for_entry] builds it. *)
Definition entry_key_for (table_name : string) (o : object) (m : value)
  : list value :=
  index_key table_name m (obj_get o (to_property_key m)) (obj_get o "id").

Definition index_key_ok (table_name : string) (o : object) (m : value)
  : bool :=
  match to_key (entry_key_for table_name o m) with
  | Some _ => true
  | None => false
  end.

(** Every index key that [create_indexes_for_entry] would build for [o] is
    one the store accepts. *)
Definition indexable (table_name : string) (o : object) (s : Store) : bool :=
  forallb (index_key_ok table_name o) (indexes_of table_name s).

(** The loop of [create_indexes_for_entry] over the markers it has listed. *)
Definition index_loop (table_name : string) (o : object) (l : list KvEntry)
  : M unit :=
  for_each l (fun secondary_key =>
    kv_set (entry_key_for table_name o (snd secondary_key))
           (obj_get o "id")).

(** The backfill of [create_index]: its statements after the marker is set. *)
Definition backfill (table_name secondary_key : string) : M unit :=
  entries <- get_all_entries table_name None ;;
  for_each entries (fun entry =>
    key <- get_prop entry secondary_key ;;
    if truthy key then
      id <- get_prop entry "id" ;;
      kv_set (index_key table_name (VString secondary_key) key id) id
    else ret tt).

(** ** Properties of the specification, as predicates *)

Definition obj_has (o : object) (f : string) : bool :=
  existsb (String.eqb f) (map fst o).

(** What [get_entry] finds under a primary key. *)
Definition deref (table_name : string) (id : KeyPart) (s : Store) : value :=
  match store_get [KString table_name; id] s with
  | Some v => v
  | None => VUndefined
  end.

(** "[update_entry] on an id that references no record fails with
    [NotFound] and leaves the store unchanged." *)
Definition update_fails_on_missing (table_name : string) (entry : object)
  (s : Store) : Prop :=
  (forall k, to_key [VString table_name; obj_get entry "id"] = Some k ->
             store_get k s = None) ->
  update_entry table_name entry s = (Throw NotFound, s).

(** "[update_entry] keeps [id] and [date_created], applies the fields it is
    given and leaves all other fields as before." *)
Definition update_merges_fields (table_name : string) (old entry : object)
  (s : Store) : Prop :=
  forall id,
    to_key_part (obj_get entry "id") = Some id ->
    store_get [KString table_name; id] s = Some (VObject old) ->
    exists r,
      deref table_name id (snd (update_entry table_name entry s)) = VObject r /\
      obj_get r "id" = obj_get old "id" /\
      obj_get r "date_created" = obj_get old "date_created" /\
      forall f, obj_get r f = if obj_has entry f then obj_get entry f
                              else obj_get old f.

(** Sample data of the test suite. *)
Definition user_a : object :=
  [("name", VString "a"); ("email", VString "a@a"); ("age", VNumber 1)].

Definition user_a_stored : object :=
  [("id", VString "01JBX0000000000000000000ZZ");
   ("date_created", VDate 1730771156992);
   ("name", VString "a"); ("email", VString "a@a"); ("age", VNumber 1)].

Definition user_a_email_patch : object :=
  [("id", VString "01JBX0000000000000000000ZZ"); ("email", VString "b@b")].

Definition store_with_user_a : Store :=
  snd (create_entry "users" user_a "01JBX0000000000000000000ZZ" 1730771156992
         empty).

(** The prefix that both index lookups scan. *)
Definition index_prefix (table_name secondary_key : string)
  (secondary_key_value : KeyPart) : Key :=
  [KString "__indexes"; KString table_name; KString secondary_key;
   secondary_key_value].

(** What [get_entry] yields for the value of an index entry the store can
    use as a key part. *)
Definition deref_value (table_name : string) (id : value) (s : Store)
  : value :=
  match to_key_part id with
  | Some p => deref table_name p s
  | None => VUndefined
  end.

Definition is_key_part (v : value) : bool :=
  match to_key_part v with Some _ => true | None => false end.

(** The records that the index entries [entries] point to, the entries
    without a record left out. *)
Definition existing_targets (table_name : string) (entries : list KvEntry)
  (s : Store) : list value :=
  flat_map (fun e =>
              match to_key_part (snd e) with
              | Some id =>
                  match store_get [KString table_name; id] s with
                  | Some r => [r]
                  | None => []
                  end
              | None => []
              end) entries.

(** "[get_entries_by_index] omits the entries whose record is missing." *)
Definition lookup_skips_missing (table_name secondary_key : string)
  (secondary_key_value : value) (s : Store) : Prop :=
  forall p, to_key_part secondary_key_value = Some p ->
    fst (get_entries_by_index table_name secondary_key secondary_key_value s)
    = Ok (existing_targets table_name
            (store_list (index_prefix table_name secondary_key p) None s) s).

(** An index on [email], one user, and the user's record then removed from
    the store directly, which leaves its index entry behind. *)
Definition store_with_dangling_entry : Store :=
  snd ((create_index "users" "email" ;;
        create_entry "users" user_a "01JBX0000000000000000000ZZ"
          1730771156992 ;;
        kv_delete [VString "users"; VString "01JBX0000000000000000000ZZ"])
       empty).

(** Indexes on [age] and [email], no record yet. *)
Definition store_with_two_indexes : Store :=
  snd (init_indexes [("users", ["age"; "email"])] empty).

(** [k |-> v] is an index entry of [table_name] on [secondary_key]. *)
Definition index_entry_on (table_name secondary_key : string) (k : Key)
  (v : value) : Prop :=
  exists fv id,
    k = [KString "__indexes"; KString table_name; KString secondary_key;
         fv; id] /\
    to_key_part v = Some id.

(** [k |-> v] is the index entry of the record [o] for one of the index
    fields registered for [table_name] in [s]. *)
Definition index_entry_of (table_name : string) (o : object) (s : Store)
  (k : Key) (v : value) : Prop :=
  exists m,
    In m (indexes_of table_name s) /\
    to_key (index_key table_name m (obj_get o (to_property_key m))
              (obj_get o "id")) = Some k /\
    v = obj_get o "id".

(** One call [create_entry(table, c_value)], with what [ulid()] and
    [new Date()] returned in it. *)
Record creation : Type :=
  { c_value : object; c_id : string; c_date : Z }.

(** A run of [create_entry] calls on one table, nothing in between. *)
Definition create_entries (table_name : string) (cs : list creation)
  : M (list object) :=
  from_async cs (fun c =>
    create_entry table_name (c_value c) (c_id c) (c_date c)).

(** The record that [create_entry] builds. *)
Definition record_of (c : creation) : object :=
  spread [("id", VString (c_id c)); ("date_created", VDate (c_date c))]
         (c_value c).

Definition binding_of (table_name : string) (c : creation) : KvEntry :=
  ([KString table_name; KString (c_id c)], VObject (record_of c)).

(** The records of a run that writes no index entry, as they pile up. *)
Definition stored_after (table_name : string) (cs : list creation)
  (s : Store) : Store :=
  fold_left (fun acc c =>
               store_set [KString table_name; KString (c_id c)]
                         (VObject (record_of c)) acc)
            cs s.

(** Every binding of the store is a record of [table_name]. *)
Definition table_only (table_name : string) (s : Store) : Prop :=
  forall b, In b s -> exists id, fst b = [KString table_name; KString id].

(** "After a run of creations the listing is in creation order." *)
Definition lists_in_creation_order (table_name : string)
  (cs : list creation) : Prop :=
  forall rs s,
    create_entries table_name cs empty = (Ok rs, s) ->
    fst (get_all_entries table_name None s) = Ok (map VObject rs).

(** Two creations within one millisecond: the ids share the time part and
    differ in the random part, the later one drawing the smaller. *)
Definition two_creations : list creation :=
  [ {| c_value := []; c_id := "01JBX0000000000000000000ZZ";
       c_date := 1730771156992 |};
    {| c_value := []; c_id := "01JBX000000000000000000000";
       c_date := 1730771156992 |} ].

(** A computation leaves the bindings of the store in key order. *)
Definition keeps_sorted {A} (m : M A) : Prop :=
  forall s, sorted s -> sorted (snd (m s)).

(** ** Deleting a record *)








(** An index on [email] and one user, as in the "Deleting" test. *)
Definition store_with_indexed_user_a : Store :=
  snd ((create_index "users" "email" ;;
        create_entry "users" user_a "01JBX0000000000000000000ZZ"
          1730771156992) empty).

(** ** Runs of operations *)

Inductive operation : Type :=
| CreateEntry (table_name : string) (value : object) (id : string)
    (date_created : Z)
| UpdateEntry (table_name : string) (entry : object)
| CreateIndex (table_name secondary_key : string)
| CreateIndexesForEntry (table_name : string) (value : object).

Definition run_operation (op : operation) : M unit :=
  match op with
  | CreateEntry table_name value id date_created =>
      create_entry table_name value id date_created ;; ret tt
  | UpdateEntry table_name entry => update_entry table_name entry
  | CreateIndex table_name secondary_key =>
      create_index table_name secondary_key
  | CreateIndexesForEntry table_name value =>
      create_indexes_for_entry table_name value
  end.

(** The operations one after the other; the run ends where one throws. *)
Definition run (ops : list operation) : M unit := for_each ops run_operation.

(** What the operations bind: a record under (table, id), the marker of an
    index to the name of its field, an index entry to the id it ends in. *)
Definition binding_kind (k : Key) (x : value) : Prop :=
  List.length k = 2 \/
  (exists t f, k = marker t f /\ x = VString f) \/
  (exists t, index_entry t k x).

Definition store_ok (s : Store) : Prop :=
  forall k x, store_get k s = Some x -> binding_kind k x.

(** The index entry of record [r] on field [f]. *)
Definition entry_key_of (table_name secondary_key : string) (r : object)
  : list value :=
  index_key table_name (VString secondary_key) (obj_get r secondary_key)
            (obj_get r "id").

(** Record [r] of the table is covered by the index on [f]: its entry is
    in the store, once, and holds the id of the record. *)
Definition covered (table_name secondary_key : string) (r : object)
  (s : Store) : Prop :=
  exists k,
    to_key (entry_key_of table_name secondary_key r) = Some k /\
    filter (fun b => key_eqb k (fst b)) s = [(k, obj_get r "id")].

(** Every live record with a non-empty value for a registered index field
    has its index entry. *)
Definition live_records_indexed (s : Store) : Prop :=
  forall t id r f,
    store_get [KString t; id] s = Some (VObject r) ->
    registered t f s ->
    truthy (obj_get r f) = true ->
    covered t f r s.

(** No index entry without a live record that has that value for the
    field. *)
Definition no_stale_entries (s : Store) : Prop :=
  forall t f fv id x,
    store_get [KString "__indexes"; KString t; KString f; fv; id] s
    = Some x ->
    exists r,
      store_get [KString t; id] s = Some (VObject r) /\
      to_key_part (obj_get r f) = Some fv.

(** The invariant of the data model, both halves. *)
Definition index_consistent (s : Store) : Prop :=
  live_records_indexed s /\ no_stale_entries s.

(** Declare the index, create a user, change the user's email. *)
Definition email_change : list operation :=
  [ CreateIndex "users" "email";
    CreateEntry "users" user_a "01JBX0000000000000000000ZZ" 1730771156992;
    UpdateEntry "users"
      [("id", VString "01JBX0000000000000000000ZZ");
       ("date_created", VDate 1730771156992);
       ("name", VString "a"); ("email", VString "b@b");
       ("age", VNumber 1)] ].

(** Every live record with a non-empty value for a registered index field
    has its index entry bound to its id. *)
Definition indexed (s : Store) : Prop :=
  forall t id r f,
    store_get [KString t; id] s = Some (VObject r) ->
    registered t f s ->
    truthy (obj_get r f) = true ->
    exists k,
      to_key (entry_key_of t f r) = Some k /\
      store_get k s = Some (obj_get r "id").

(** ** Further properties of the class, as predicates *)

(** A lookup result comes from the table asked for: it is [undefined] or
    a value stored under (table, id) for some id. *)
Definition from_table (table_name : string) (s : Store) (y : value) : Prop :=
  y = VUndefined \/
  exists id, store_get [KString table_name; id] s = Some y.

(** [k |-> v] is the index entry on [secondary_key] of a record that the
    listing of [table_name] in [s] holds with a non-empty value for the
    field. *)
Definition backfill_entry (table_name secondary_key : string) (s : Store)
  (k : Key) (v : value) : Prop :=
  exists r,
    In (VObject r) (map snd (store_list [KString table_name] None s)) /\
    truthy (obj_get r secondary_key) = true /\
    to_key (entry_key_of table_name secondary_key r) = Some k /\
    v = obj_get r "id".

(** One turn of the loop of [create_index]. *)
Definition backfill_turn (table_name secondary_key : string) (entry : value)
  : M unit :=
  key <- get_prop entry secondary_key ;;
  if truthy key then
    id <- get_prop entry "id" ;;
    kv_set (index_key table_name (VString secondary_key) key id) id
  else ret tt.

(** The keys that the loop of [create_indexes_for_entry] writes for [o]
    over the listed markers [l], up to the first key the store refuses. *)
Fixpoint written_keys (table_name : string) (o : object) (l : list KvEntry)
  : list Key :=
  match l with
  | [] => []
  | e :: l' =>
      match to_key (entry_key_for table_name o (snd e)) with
      | Some k => k :: written_keys table_name o l'
      | None => []
      end
  end.

(** How that loop ends: it throws on the first key the store refuses. *)
Definition loop_outcome (table_name : string) (o : object)
  (l : list KvEntry) : outcome unit :=
  if forallb (index_key_ok table_name o) (map snd l) then Ok tt
  else Throw TypeError.

(** ** The migration script

    The script of the repository that rewrites every [Date] held by a
    stored object as a datetime string. [datetime_string] stands for
    [new DateTime(date).toString()] of the [@paulaboks/datetime] package;
    the model starts after the path argument is read and the prompt is
    confirmed. *)

(** A key as the store hands it back. *)
Definition of_key_part (p : KeyPart) : value :=
  match p with
  | KString s => VString s
  | KNumber n => VNumber n
  | KBigInt n => VBigInt n
  | KBool b => VBool b
  end.

Definition of_key (k : Key) : list value := map of_key_part k.

(** [typeof value === "object"] *)
Definition typeof_object (v : value) : bool :=
  match v with
  | VNull | VDate _ | VObject _ => true
  | _ => false
  end.

(** The inner loop: [for (const value_key in value)]. *)
Definition convert_dates (datetime_string : Z -> string) (o : object)
  : object :=
  fold_left (fun val value_key =>
               match obj_get val value_key with
               | VDate ms => obj_set val value_key
                               (VString (datetime_string ms))
               | _ => val
               end)
            (map fst o) o.

(** What the script stores back for a value it has read. *)
Definition migrate_value (datetime_string : Z -> string) (v : value)
  : value :=
  match v with
  | VObject o => VObject (convert_dates datetime_string o)
  | _ => v
  end.

Definition migrate (datetime_string : Z -> string) : M unit :=
  entries <- kv_list [] None ;;
  for_each entries (fun e =>
    if typeof_object (snd e) then
      kv_set (of_key (fst e)) (migrate_value datetime_string (snd e))
    else ret tt).

(** What becomes of one property. *)
Definition convert_field (datetime_string : Z -> string) (x : value)
  : value :=
  match x with
  | VDate ms => VString (datetime_string ms)
  | _ => x
  end.

(** "[create_entry] returns a record, and [get_entry] on its id returns
    that record." *)
Definition create_then_get (table_name : string) (value : object)
  (id : string) (date_created : Z) (s : Store) : Prop :=
  exists r,
    fst (create_entry table_name value id date_created s) = Ok r /\
    get_entry table_name (obj_get r "id")
      (snd (create_entry table_name value id date_created s))
    = (Ok (VObject r), snd (create_entry table_name value id date_created s)).

(** An index declared on [date_created], no record yet. *)
Definition store_with_date_index : Store :=
  snd (run [CreateIndex "users" "date_created"] empty).



(** * Properties *)

(** ** The key order *)

Section KeyOrder.

Lemma str_compare_refl (x : string) : String_as_OT.compare x x = Eq.
Proof.
  destruct (String_as_OT.compare_spec x x) as [_ | H | H]; trivial;
    exfalso; revert H; apply (StrictOrder_Irreflexive (R := String_as_OT.lt)).
Qed.

Lemma str_compare_eq (x y : string) : String_as_OT.compare x y = Eq -> x = y.
Proof.
  destruct (String_as_OT.compare_spec x y); trivial; discriminate.
Qed.

Lemma str_compare_trans (x y z : string) :
  String_as_OT.compare x y = Lt -> String_as_OT.compare y z = Lt ->
  String_as_OT.compare x z = Lt.
Proof.
  apply (StrictOrder_Transitive (R := String_as_OT.lt)).
Qed.

Lemma str_compare_antisym (x y : string) :
  String_as_OT.compare y x = CompOpp (String_as_OT.compare x y).
Proof.
  destruct (String_as_OT.compare_spec x y) as [E | H | H]; simpl.
  - red in E. subst. apply str_compare_refl.
  - destruct (String_as_OT.compare_spec y x) as [E | H' | H']; trivial.
    + red in E. subst. exfalso; revert H.
      apply (StrictOrder_Irreflexive (R := String_as_OT.lt)).
    + exfalso. apply (StrictOrder_Irreflexive (R := String_as_OT.lt) x).
      now apply (StrictOrder_Transitive (R := String_as_OT.lt)) with y.
  - exact H.
Qed.

Lemma part_compare_refl (a : KeyPart) : part_compare a a = Eq.
Proof.
  destruct a as [x | x | x | []]; simpl; trivial;
    first [apply str_compare_refl | apply Z.compare_refl].
Qed.

Lemma part_compare_eq (a b : KeyPart) : part_compare a b = Eq -> a = b.
Proof.
  destruct a as [x | x | x | x], b as [y | y | y | y]; simpl;
    try discriminate; intros H.
  - f_equal. now apply str_compare_eq.
  - f_equal. now apply Z.compare_eq.
  - f_equal. now apply Z.compare_eq.
  - destruct x, y; trivial; discriminate.
Qed.

Lemma part_compare_antisym (a b : KeyPart) :
  part_compare b a = CompOpp (part_compare a b).
Proof.
  destruct a as [x | x | x | x], b as [y | y | y | y]; simpl; trivial.
  - apply str_compare_antisym.
  - apply Z.compare_antisym.
  - apply Z.compare_antisym.
  - now destruct x, y.
Qed.

Lemma part_compare_trans (a b c : KeyPart) :
  part_compare a b = Lt -> part_compare b c = Lt -> part_compare a c = Lt.
Proof.
  destruct a as [x | x | x | x], b as [y | y | y | y], c as [z | z | z | z];
    simpl; trivial; try discriminate.
  - apply str_compare_trans.
  - rewrite !Z.compare_lt_iff. lia.
  - rewrite !Z.compare_lt_iff. lia.
  - destruct x, y, z; trivial; discriminate.
Qed.

Lemma key_compare_refl (a : Key) : key_compare a a = Eq.
Proof.
  induction a as [| x a IH]; simpl; trivial.
  now rewrite part_compare_refl.
Qed.

Lemma key_compare_eq (a b : Key) : key_compare a b = Eq -> a = b.
Proof.
  revert b; induction a as [| x a IH]; intros [| y b]; simpl;
    trivial; try discriminate.
  destruct (part_compare x y) eqn:E; try discriminate.
  intros H. apply part_compare_eq in E. apply IH in H. congruence.
Qed.

Lemma key_compare_antisym (a b : Key) :
  key_compare b a = CompOpp (key_compare a b).
Proof.
  revert b; induction a as [| x a IH]; intros [| y b]; simpl; trivial.
  rewrite (part_compare_antisym x y).
  destruct (part_compare x y); simpl; trivial.
Qed.

Lemma key_lt_trans (a b c : Key) : key_lt a b -> key_lt b c -> key_lt a c.
Proof.
  unfold key_lt. revert b c.
  induction a as [| x a IH]; intros [| y b] [| z c]; simpl;
    trivial; try discriminate.
  destruct (part_compare x y) eqn:Exy; try discriminate;
    destruct (part_compare y z) eqn:Eyz; try discriminate; intros H1 H2.
  - apply part_compare_eq in Exy, Eyz. subst.
    rewrite part_compare_refl. now apply IH with b.
  - apply part_compare_eq in Exy. subst. now rewrite Eyz.
  - apply part_compare_eq in Eyz. subst. now rewrite Exy.
  - now rewrite (part_compare_trans _ _ _ Exy Eyz).
Qed.

Lemma key_eqb_refl (a : Key) : key_eqb a a = true.
Proof. unfold key_eqb. now rewrite key_compare_refl. Qed.

Lemma key_eqb_eq (a b : Key) : key_eqb a b = true <-> a = b.
Proof.
  unfold key_eqb. split.
  - destruct (key_compare a b) eqn:E; try discriminate.
    intros _. now apply key_compare_eq.
  - intros ->. now rewrite key_compare_refl.
Qed.

Lemma key_eqb_neq (a b : Key) : a <> b -> key_eqb a b = false.
Proof.
  intros H. destruct (key_eqb a b) eqn:E; trivial.
  now apply key_eqb_eq in E.
Qed.

End KeyOrder.

(** ** Reading and writing the store *)

Section StoreLaws.

Lemma store_get_set_same (k : Key) (v : value) (s : Store) :
  store_get k (store_set k v s) = Some v.
Proof.
  induction s as [| [k' v'] s IH]; simpl.
  - now rewrite key_eqb_refl.
  - destruct (key_compare k k') eqn:E; simpl.
    + now rewrite key_eqb_refl.
    + now rewrite key_eqb_refl.
    + unfold key_eqb. now rewrite E.
Qed.

Lemma store_get_set_other (k k' : Key) (v : value) (s : Store) :
  k <> k' -> store_get k (store_set k' v s) = store_get k s.
Proof.
  intros N. induction s as [| [k0 v0] s IH]; simpl.
  - now rewrite (key_eqb_neq N).
  - destruct (key_compare k' k0) eqn:E; simpl.
    + apply key_compare_eq in E. subst k0. now rewrite (key_eqb_neq N).
    + now rewrite (key_eqb_neq N).
    + now rewrite IH.
Qed.

Lemma store_get_set (k k' : Key) (v : value) (s : Store) :
  store_get k (store_set k' v s) = if key_eqb k k' then Some v
                                   else store_get k s.
Proof.
  destruct (key_eqb k k') eqn:E.
  - apply key_eqb_eq in E. subst. apply store_get_set_same.
  - apply store_get_set_other. intros ->. now rewrite key_eqb_refl in E.
Qed.

Lemma store_get_In (k : Key) (v : value) (s : Store) :
  store_get k s = Some v -> In (k, v) s.
Proof.
  induction s as [| [k' v'] s IH]; simpl; try discriminate.
  destruct (key_eqb k k') eqn:E.
  - apply key_eqb_eq in E. intros [= ->]. subst. now left.
  - intros H. right. now apply IH.
Qed.



Lemma has_prefix_refl_app (p : Key) (x : KeyPart) (r : Key) :
  has_prefix p (p ++ x :: r) = true.
Proof.
  induction p as [| y p IH]; simpl; trivial.
  now rewrite part_compare_refl.
Qed.

Lemma has_prefix_inv (p k : Key) :
  has_prefix p k = true -> exists x r, k = p ++ x :: r.
Proof.
  revert k; induction p as [| y p IH]; intros [| z k]; simpl;
    try discriminate.
  - intros _. now exists z, k.
  - destruct (part_compare y z) eqn:E; try discriminate.
    apply part_compare_eq in E. subst z.
    intros H. destruct (IH _ H) as (x & r & ->). now exists x, r.
Qed.

End StoreLaws.

(** ** Frame rules *)

Section Frames.

Variable Q : Key -> value -> Prop.

Lemma writes_only_refl (s : Store) : writes_only Q s s.
Proof. intros k. now left. Qed.

Lemma writes_only_trans (s1 s2 s3 : Store) :
  writes_only Q s1 s2 -> writes_only Q s2 s3 -> writes_only Q s1 s3.
Proof.
  intros H12 H23 k. destruct (H23 k) as [E | H]; [| now right].
  rewrite E. apply H12.
Qed.

Lemma writes_only_set (k : Key) (v : value) (s : Store) :
  Q k v -> writes_only Q s (store_set k v s).
Proof.
  intros H k'. rewrite store_get_set. destruct (key_eqb k' k) eqn:E.
  - apply key_eqb_eq in E. subst. right. now exists v.
  - now left.
Qed.

Lemma touches_ret {A} (a : A) : touches Q (ret a).
Proof. intros s. apply writes_only_refl. Qed.

Lemma touches_throw {A} (e : error) : touches Q (@throw A e).
Proof. intros s. apply writes_only_refl. Qed.

Lemma touches_bind {A B} (m : M A) (k : A -> M B) :
  touches Q m -> (forall a, touches Q (k a)) -> touches Q (bind m k).
Proof.
  intros Hm Hk s. unfold bind. specialize (Hm s).
  destruct (m s) as [[a | e] s1]; simpl in *; trivial.
  apply writes_only_trans with s1; trivial. apply Hk.
Qed.

Lemma touches_for_each {A} (l : list A) (body : A -> M unit) :
  (forall x, In x l -> touches Q (body x)) -> touches Q (for_each l body).
Proof.
  induction l as [| x l IH]; simpl; intros H.
  - apply touches_ret.
  - apply touches_bind; [apply H; now left |].
    intros _. apply IH. intros y Hy. apply H. now right.
Qed.

Lemma touches_kv_get (key : list value) : touches Q (kv_get key).
Proof.
  intros s. unfold kv_get. destruct (to_key key); apply writes_only_refl.
Qed.

Lemma touches_kv_list (prefix : list value) (limit : option positive) :
  touches Q (kv_list prefix limit).
Proof.
  intros s. unfold kv_list. destruct (to_key prefix); apply writes_only_refl.
Qed.

Lemma touches_kv_set (key : list value) (v : value) :
  (forall k, to_key key = Some k -> Q k v) -> touches Q (kv_set key v).
Proof.
  intros H s. unfold kv_set. destruct (to_key key) as [k |]; simpl.
  - apply writes_only_set. now apply H.
  - apply writes_only_refl.
Qed.

Lemma touches_get_prop (v : value) (f : string) : touches Q (get_prop v f).
Proof. destruct v; simpl; first [apply touches_ret | apply touches_throw]. Qed.

End Frames.

Lemma writes_only_weaken (Q Q' : Key -> value -> Prop) (s s' : Store) :
  (forall k v, Q k v -> Q' k v) -> writes_only Q s s' -> writes_only Q' s s'.
Proof.
  intros H W k. destruct (W k) as [E | (v & E & HQ)]; [now left | right].
  exists v. auto.
Qed.

Section NotFound.

Lemma nnf_ret {A} (a : A) : never_not_found (ret a).
Proof. intros s. discriminate. Qed.

Lemma nnf_bind {A B} (m : M A) (k : A -> M B) :
  never_not_found m -> (forall a, never_not_found (k a)) ->
  never_not_found (bind m k).
Proof.
  intros Hm Hk s. unfold bind. specialize (Hm s).
  destruct (m s) as [[a | e] s1]; simpl in *; [apply Hk |].
  intros [= ->]. now apply Hm.
Qed.

Lemma nnf_for_each {A} (l : list A) (body : A -> M unit) :
  (forall x, never_not_found (body x)) -> never_not_found (for_each l body).
Proof.
  intros H. induction l as [| x l IH]; simpl.
  - apply nnf_ret.
  - apply nnf_bind; auto.
Qed.

Lemma nnf_kv_set (key : list value) (v : value) :
  never_not_found (kv_set key v).
Proof. intros s. unfold kv_set. destruct (to_key key); discriminate. Qed.

Lemma nnf_kv_list (prefix : list value) (limit : option positive) :
  never_not_found (kv_list prefix limit).
Proof. intros s. unfold kv_list. destruct (to_key prefix); discriminate. Qed.

End NotFound.

(** ** Writes of the index engine *)

Section IndexWrites.

Lemma to_key_index_key (t : string) (f fv id : value) (k : Key) :
  to_key (index_key t f fv id) = Some k ->
  exists pf pv pid,
    to_key_part f = Some pf /\ to_key_part fv = Some pv /\
    to_key_part id = Some pid /\
    k = [KString "__indexes"; KString t; pf; pv; pid].
Proof.
  unfold index_key. simpl.
  destruct (to_key_part f) as [pf |]; try discriminate.
  destruct (to_key_part fv) as [pv |]; try discriminate.
  destruct (to_key_part id) as [pid |]; try discriminate.
  intros [= <-]. now exists pf, pv, pid.
Qed.

Lemma touches_index_write (t : string) (f fv id : value) :
  touches (index_entry t) (kv_set (index_key t f fv id) id).
Proof.
  apply touches_kv_set. intros k H.
  destruct (to_key_index_key _ _ _ _ H) as (pf & pv & pid & _ & _ & E & ->).
  now exists pf, pv, pid.
Qed.

Lemma create_indexes_for_entry_touches (t : string) (o : object) :
  touches (index_entry t) (create_indexes_for_entry t o).
Proof.
  unfold create_indexes_for_entry.
  apply touches_bind; [apply touches_kv_list |].
  intros l. apply touches_for_each. intros m _. apply touches_index_write.
Qed.

Lemma backfill_touches (t f : string) (entries : list value) :
  touches (index_entry t)
    (for_each entries (fun entry =>
       key <- get_prop entry f ;;
       if truthy key then
         id <- get_prop entry "id" ;;
         kv_set (index_key t (VString f) key id) id
       else ret tt)).
Proof.
  apply touches_for_each. intros e _.
  apply touches_bind; [apply touches_get_prop |]. intros key.
  destruct (truthy key); [| apply touches_ret].
  apply touches_bind; [apply touches_get_prop |]. intros id.
  apply touches_index_write.
Qed.

Lemma index_entry_not_short (t : string) (k : Key) (v : value) :
  index_entry t k v -> List.length k = 5.
Proof. intros (f & fv & id & -> & _). reflexivity. Qed.

Lemma writes_only_index_keep (t : string) (s s' : Store) (k : Key) :
  writes_only (index_entry t) s s' -> List.length k <> 5 ->
  store_get k s' = store_get k s.
Proof.
  intros W N. destruct (W k) as [E | (v & _ & H)]; trivial.
  apply index_entry_not_short in H. contradiction.
Qed.

Lemma create_indexes_for_entry_nnf (t : string) (o : object) :
  never_not_found (create_indexes_for_entry t o).
Proof.
  unfold create_indexes_for_entry.
  apply nnf_bind; [apply nnf_kv_list |].
  intros l. apply nnf_for_each. intros m. apply nnf_kv_set.
Qed.

End IndexWrites.

(** ** Declaring an index *)

Section Declare.

Lemma create_index_registered (t f : string) (s : Store) :
  registered t f s -> create_index t f s = (Ok tt, s).
Proof.
  unfold registered, create_index, get_from_key, bind, kv_get. simpl.
  fold (marker t f). destruct (store_get (marker t f) s); simpl; trivial.
  intros H. now contradiction H.
Qed.

Lemma create_index_fresh (t f : string) (s : Store) :
  store_get (marker t f) s = None ->
  create_index t f s = backfill t f (store_set (marker t f) (VString f) s).
Proof.
  unfold create_index, get_from_key, bind, kv_get. simpl.
  fold (marker t f). intros ->. reflexivity.
Qed.

Lemma backfill_touches_index (t f : string) :
  touches (index_entry t) (backfill t f).
Proof.
  unfold backfill. apply touches_bind.
  - unfold get_all_entries. apply touches_bind; [apply touches_kv_list |].
    intros l. apply touches_ret.
  - intros entries. apply backfill_touches.
Qed.

Lemma create_index_registers (t f : string) (s : Store) :
  registered t f (snd (create_index t f s)).
Proof.
  destruct (store_get (marker t f) s) as [v |] eqn:E.
  - rewrite create_index_registered; unfold registered; simpl; congruence.
  - rewrite (create_index_fresh _ _ _ E). unfold registered.
    rewrite (writes_only_index_keep (marker t f)
               (backfill_touches_index t f _)) by (simpl; lia).
    rewrite store_get_set_same. discriminate.
Qed.

(** C9. Declaring an index that is already registered returns at once and
    leaves the store as it is; hence a second [create_index] on the same
    table and field, whatever the first one did, changes nothing: the store
    after two calls is the store after one. *)
Theorem create_index_idempotent (t f : string) (s : Store) :
  (registered t f s -> create_index t f s = (Ok tt, s)) /\
  create_index t f (snd (create_index t f s))
  = (Ok tt, snd (create_index t f s)).
Proof.
  split.
  - apply create_index_registered.
  - apply create_index_registered, create_index_registers.
Qed.

Lemma create_index_idempotent_witness :
  registered "users" "email" (snd (create_index "users" "email" empty)) /\
  create_index "users" "email" (snd (create_index "users" "email" empty))
  = (Ok tt, snd (create_index "users" "email" empty)).
Proof.
  split.
  - unfold registered. vm_compute. discriminate.
  - apply (proj1 (create_index_idempotent "users" "email"
                    (snd (create_index "users" "email" empty)))).
    unfold registered. vm_compute. discriminate.
Defined.

End Declare.

(** ** Records: create, update, read back *)

Section Records.

Lemma get_entry_eq (t : string) (idv : value) (id : KeyPart) (s : Store) :
  to_key_part idv = Some id ->
  get_entry t idv s = (Ok (deref t id s), s).
Proof.
  intros H. unfold get_entry, get_from_key, bind, kv_get, deref. simpl.
  rewrite H. now destruct (store_get [KString t; id] s).
Qed.

Lemma get_entry_invalid (t : string) (idv : value) (s : Store) :
  to_key_part idv = None -> get_entry t idv s = (Throw TypeError, s).
Proof.
  intros H. unfold get_entry, get_from_key, bind, kv_get. simpl.
  now rewrite H.
Qed.

Lemma update_entry_invalid (t : string) (entry : object) (s : Store) :
  to_key_part (obj_get entry "id") = None ->
  update_entry t entry s = (Throw TypeError, s).
Proof.
  intros H. unfold update_entry, bind, kv_set. simpl. now rewrite H.
Qed.

Lemma update_entry_valid (t : string) (entry : object) (id : KeyPart)
  (s : Store) :
  to_key_part (obj_get entry "id") = Some id ->
  update_entry t entry s
  = create_indexes_for_entry t entry
      (store_set [KString t; id] (VObject entry) s).
Proof.
  intros H. unfold update_entry, bind, kv_set. simpl. now rewrite H.
Qed.

Lemma update_entry_stored (t : string) (entry : object) (id : KeyPart)
  (s : Store) :
  to_key_part (obj_get entry "id") = Some id ->
  deref t id (snd (update_entry t entry s)) = VObject entry.
Proof.
  intros H. rewrite (update_entry_valid _ _ _ H). unfold deref.
  rewrite (writes_only_index_keep [KString t; id]
             (create_indexes_for_entry_touches t entry _)) by (simpl; lia).
  now rewrite store_get_set_same.
Qed.

(** C3, as the code has it. [update_entry] never fails with [NotFound]. An
    id that the store cannot take as a key part (an unset id among them)
    makes the first write throw a [TypeError] and leaves the store
    unchanged; any other id, whether or not a record exists under it, has
    the field set written at (table, id) and the indexes written next. *)
Theorem update_entry_is_upsert (t : string) (entry : object) (s : Store) :
  fst (update_entry t entry s) <> Throw NotFound /\
  (to_key_part (obj_get entry "id") = None ->
   update_entry t entry s = (Throw TypeError, s)) /\
  (forall id, to_key_part (obj_get entry "id") = Some id ->
     update_entry t entry s
     = create_indexes_for_entry t entry
         (store_set [KString t; id] (VObject entry) s)).
Proof.
  split; [| split].
  - destruct (to_key_part (obj_get entry "id")) as [id |] eqn:E.
    + rewrite (update_entry_valid _ _ _ E).
      apply create_indexes_for_entry_nnf.
    + rewrite (update_entry_invalid _ _ _ E). discriminate.
  - apply update_entry_invalid.
  - intros id. apply update_entry_valid.
Qed.

Lemma update_entry_is_upsert_witness :
  update_entry "users" [("email", VString "a@a")] empty
  = (Throw TypeError, empty).
Proof.
  apply (proj1 (proj2 (update_entry_is_upsert "users"
                         [("email", VString "a@a")] empty))).
  reflexivity.
Defined.

(** C3 as stated fails: on the empty store, updating a record that does not
    exist succeeds and creates it. *)
Lemma update_entry_missing_counterexample :
  ~ update_fails_on_missing "users" user_a_email_patch empty.
Proof.
  unfold update_fails_on_missing. intros H.
  assert (E : update_entry "users" user_a_email_patch empty
              = (Ok tt, [([KString "users";
                           KString "01JBX0000000000000000000ZZ"],
                          VObject user_a_email_patch)]))
    by (vm_compute; reflexivity).
  rewrite E in H. discriminate H. intros k [= <-]. reflexivity.
Qed.

(** C6, as the code has it. [update_entry] stores the field set it is given,
    whole: reading (table, id) back returns exactly that field set. The id
    is therefore unchanged, and [date_created] or any other field is what
    the caller passed, absent when the caller left it out. *)
Theorem update_entry_replaces_record (t : string) (entry : object)
  (id : KeyPart) (s : Store) :
  to_key_part (obj_get entry "id") = Some id ->
  get_entry t (obj_get entry "id") (snd (update_entry t entry s))
  = (Ok (VObject entry), snd (update_entry t entry s)).
Proof.
  intros H. rewrite (get_entry_eq _ _ _ H).
  now rewrite (update_entry_stored _ _ _ H).
Qed.

Lemma update_entry_replaces_record_witness :
  get_entry "users" (obj_get user_a_email_patch "id")
    (snd (update_entry "users" user_a_email_patch store_with_user_a))
  = (Ok (VObject user_a_email_patch),
     snd (update_entry "users" user_a_email_patch store_with_user_a)).
Proof.
  apply (update_entry_replaces_record "users" user_a_email_patch
           (id := KString "01JBX0000000000000000000ZZ") store_with_user_a).
  reflexivity.
Defined.

(** C6 as stated fails: an update that carries only [id] and [email] drops
    [date_created], [name] and [age] from the stored record. *)
Lemma update_entry_merge_counterexample :
  ~ update_merges_fields "users" user_a_stored user_a_email_patch
      store_with_user_a.
Proof.
  unfold update_merges_fields. intros H.
  destruct (H (KString "01JBX0000000000000000000ZZ")) as (r & E & _ & D & _).
  - reflexivity.
  - vm_compute. reflexivity.
  - rewrite (update_entry_stored "users" user_a_email_patch
               (id := KString "01JBX0000000000000000000ZZ")) in E
      by reflexivity.
    injection E as <-. vm_compute in D. discriminate D.
Qed.

End Records.

(** ** Objects *)

Section Objects.

Lemma obj_get_set_other (o : object) (f g : string) (v : value) :
  f <> g -> obj_get (obj_set o g v) f = obj_get o f.
Proof.
  intros N. induction o as [| [h w] o IH]; simpl.
  - now rewrite (proj2 (String.eqb_neq f g) N).
  - destruct (String.eqb g h) eqn:E; simpl.
    + apply String.eqb_eq in E. subst h.
      now rewrite (proj2 (String.eqb_neq f g) N).
    + now rewrite IH.
Qed.

Lemma obj_get_spread_other (extra o : object) (f : string) :
  ~ In f (map fst extra) -> obj_get (spread o extra) f = obj_get o f.
Proof.
  unfold spread. revert o.
  induction extra as [| [g v] extra IH]; simpl; intros o H; trivial.
  rewrite IH by tauto. apply obj_get_set_other. intros ->. tauto.
Qed.

End Objects.

(** ** Prefix scans *)

Section Scans.

Lemma has_prefix_length (p k : Key) :
  has_prefix p k = true -> List.length p < List.length k.
Proof.
  intros H. destruct (has_prefix_inv _ _ H) as (x & r & ->).
  rewrite length_app. simpl. lia.
Qed.

Lemma filter_store_set_other (f : KvEntry -> bool) (k : Key) (v : value)
  (s : Store) :
  (forall w, f (k, w) = false) ->
  filter f (store_set k v s) = filter f s.
Proof.
  intros H. induction s as [| [k' v'] s IH]; simpl.
  - now rewrite H.
  - destruct (key_compare k k') eqn:E; simpl.
    + apply key_compare_eq in E. subst k'. now rewrite !H.
    + now rewrite H.
    + now rewrite IH.
Qed.

Lemma store_list_set_other (p k : Key) (limit : option positive)
  (v : value) (s : Store) :
  has_prefix p k = false ->
  store_list p limit (store_set k v s) = store_list p limit s.
Proof.
  intros H. unfold store_list. now rewrite filter_store_set_other.
Qed.

Lemma indexes_of_set_record (t t' : string) (id : KeyPart) (v : value)
  (s : Store) :
  indexes_of t (store_set [KString t'; id] v s) = indexes_of t s.
Proof.
  unfold indexes_of. rewrite store_list_set_other; trivial.
  destruct (has_prefix _ _) eqn:E; trivial.
  apply has_prefix_length in E. simpl in E. lia.
Qed.

Lemma store_list_In (p k : Key) (v : value) (s : Store) :
  store_get k s = Some v -> has_prefix p k = true ->
  In (k, v) (store_list p None s).
Proof.
  intros G H. unfold store_list. simpl. apply filter_In. split; trivial.
  now apply store_get_In.
Qed.

Lemma indexes_of_set_record_indexable (t : string) (o : object)
  (id : KeyPart) (v : value) (s : Store) :
  indexable t o (store_set [KString t; id] v s) = indexable t o s.
Proof. unfold indexable. now rewrite indexes_of_set_record. Qed.

End Scans.

(** ** Writing the index entries of one record *)

Section EntryIndexes.

Variables (t : string) (o : object).

Lemma index_loop_ok (l : list KvEntry) (s : Store) :
  fst (index_loop t o l s) = Ok tt
  <-> forallb (index_key_ok t o) (map snd l) = true.
Proof.
  revert s. unfold index_loop.
  induction l as [| [k m] l IH]; intros s; cbn [for_each map forallb snd].
  - simpl. tauto.
  - unfold bind at 1, kv_set at 1, index_key_ok at 1.
    destruct (to_key _) as [k' |]; simpl.
    + apply IH.
    + split; discriminate.
Qed.

Lemma create_indexes_for_entry_ok (s : Store) :
  fst (create_indexes_for_entry t o s) = Ok tt <-> indexable t o s = true.
Proof.
  unfold create_indexes_for_entry, indexable, indexes_of, bind, kv_list.
  simpl to_key. apply index_loop_ok.
Qed.

End EntryIndexes.

Section RoundTrip.

Lemma create_entry_unfold (t : string) (value : object) (id : string)
  (date_created : Z) (s : Store) :
  let entry :=
    spread [("id", VString id); ("date_created", VDate date_created)] value in
  let r := create_indexes_for_entry t entry
             (store_set [KString t; KString id] (VObject entry) s) in
  create_entry t value id date_created s
  = (match fst r with Ok _ => Ok entry | Throw e => Throw e end, snd r).
Proof.
  unfold create_entry, bind, kv_set, ret. simpl.
  destruct (create_indexes_for_entry _ _ _) as [[[] | e] s']; reflexivity.
Qed.

Lemma create_entry_stored (t : string) (value : object) (id : string)
  (date_created : Z) (s : Store) :
  deref t (KString id) (snd (create_entry t value id date_created s))
  = VObject (spread [("id", VString id); ("date_created", VDate date_created)]
               value).
Proof.
  rewrite create_entry_unfold. simpl snd. unfold deref.
  rewrite (writes_only_index_keep [KString t; KString id]
             (create_indexes_for_entry_touches t _ _)) by (simpl; lia).
  now rewrite store_get_set_same.
Qed.

(** C8. For a field set without an [id] property of its own,
    [create_entry] returns the record whenever the store accepts the index
    keys of the record, and each time [create_entry] returns a record [r],
    [get_entry] on [r.id] returns [r] from the resulting store. *)
Theorem create_entry_round_trip (t : string) (value : object) (id : string)
  (date_created : Z) (s : Store) :
  ~ In "id" (map fst value) ->
  let entry :=
    spread [("id", VString id); ("date_created", VDate date_created)] value in
  let out := create_entry t value id date_created s in
  (indexable t entry s = true -> fst out = Ok entry) /\
  (forall r, fst out = Ok r ->
     get_entry t (obj_get r "id") (snd out) = (Ok (VObject r), snd out)).
Proof.
  intros NoId entry out. split.
  - intros I. unfold out. rewrite create_entry_unfold. simpl fst.
    fold entry.
    rewrite <- (indexes_of_set_record_indexable t entry (KString id)
                  (VObject entry) s) in I.
    apply create_indexes_for_entry_ok in I. now rewrite I.
  - intros r Hr.
    assert (r = entry) as ->.
    { unfold out in Hr. rewrite create_entry_unfold in Hr. simpl fst in Hr.
      fold entry in Hr.
      destruct (fst (create_indexes_for_entry _ _ _)); congruence. }
    assert (Hid : obj_get entry "id" = VString id).
    { unfold entry. rewrite obj_get_spread_other by exact NoId. reflexivity. }
    rewrite Hid. rewrite (get_entry_eq t (VString id) (id := KString id))
      by reflexivity.
    unfold out. now rewrite create_entry_stored.
Qed.

End RoundTrip.

Lemma create_entry_round_trip_witness :
  fst (create_entry "users" user_a "01JBX0000000000000000000ZZ" 1730771156992
         (snd (create_index "users" "email" empty)))
  = Ok user_a_stored.
Proof.
  apply (proj1 (create_entry_round_trip "users" user_a
                  "01JBX0000000000000000000ZZ" 1730771156992
                  (snd (create_index "users" "email" empty))
                  ltac:(simpl; intuition discriminate))).
  vm_compute. reflexivity.
Defined.

(** ** Looking records up through an index *)

Section Lookup.

Lemma from_async_get_entry (t : string) (l : list KvEntry) (s : Store) :
  forallb (fun e => is_key_part (snd e)) l = true ->
  from_async l (fun entry => get_entry t (snd entry)) s
  = (Ok (map (fun e => deref_value t (snd e) s) l), s).
Proof.
  induction l as [| e l IH]; simpl; trivial.
  intros H. apply andb_prop in H. destruct H as [He Hl].
  unfold bind at 1. unfold is_key_part in He.
  destruct (to_key_part (snd e)) as [id |] eqn:E; try discriminate.
  rewrite (get_entry_eq _ _ _ E). unfold bind at 1. rewrite (IH Hl).
  unfold ret, deref_value. now rewrite E.
Qed.

Lemma index_scan (t f : string) (v : value) (p : KeyPart) (s : Store) :
  to_key_part v = Some p ->
  get_all_from_key [VString "__indexes"; VString t; VString f; v] None s
  = (Ok (store_list (index_prefix t f p) None s), s).
Proof.
  intros H. unfold get_all_from_key, kv_list. simpl. now rewrite H.
Qed.

(** C5, as the code has it. With [entries] the index entries under
    (table, field, value), in key order: when the first of them points to a
    missing record, [get_entry_by_index] returns [undefined] and no error;
    [get_entries_by_index] returns one result per entry, in the same order,
    the record where there is one and [undefined] where the record is
    missing. *)
Theorem index_lookup_dangling (t f : string) (v : value) (p : KeyPart)
  (s : Store) :
  to_key_part v = Some p ->
  let entries := store_list (index_prefix t f p) None s in
  (forall e rest id,
     entries = e :: rest -> to_key_part (snd e) = Some id ->
     store_get [KString t; id] s = None ->
     get_entry_by_index t f v s = (Ok VUndefined, s)) /\
  (forallb (fun e => is_key_part (snd e)) entries = true ->
   get_entries_by_index t f v s
   = (Ok (map (fun e => deref_value t (snd e) s) entries), s)).
Proof.
  intros H entries. split.
  - intros e rest id E Hid Hnone.
    unfold get_entry_by_index, bind. rewrite (index_scan _ _ _ s H).
    fold entries. rewrite E. rewrite (get_entry_eq _ _ _ Hid).
    unfold deref. now rewrite Hnone.
  - intros Hall. unfold get_entries_by_index, bind.
    rewrite (index_scan _ _ _ s H). fold entries.
    now rewrite from_async_get_entry.
Qed.

Lemma index_lookup_dangling_witness :
  get_entries_by_index "users" "email" (VString "a@a")
    store_with_dangling_entry
  = (Ok [VUndefined], store_with_dangling_entry).
Proof.
  apply (proj2 (index_lookup_dangling "users" "email" (VString "a@a")
                  store_with_dangling_entry
                  (eq_refl (Some (KString "a@a"))))).
  vm_compute. reflexivity.
Defined.

(** C5 as stated fails: one index entry whose record is gone is not
    skipped, the result has an [undefined] in its place. *)
Lemma lookup_skips_missing_counterexample :
  ~ lookup_skips_missing "users" "email" (VString "a@a")
      store_with_dangling_entry.
Proof.
  intros H. specialize (H (KString "a@a") eq_refl).
  vm_compute in H. discriminate H.
Qed.

End Lookup.

(** ** A record without one of the indexed fields *)

Section MissingField.

(** C4 at its failing input. With indexes on [age] and [email] registered,
    an update that carries [id] and [email] but no [age] stores the record,
    then throws on the index key of [age]; the index entry of [email] is
    never written. Declaring the index over the same record skips the
    missing field instead and succeeds. *)
Theorem update_entry_missing_field_aborts :
  let out := update_entry "users" user_a_email_patch store_with_two_indexes in
  fst out = Throw TypeError /\
  deref "users" (KString "01JBX0000000000000000000ZZ") (snd out)
  = VObject user_a_email_patch /\
  obj_get user_a_email_patch "email" = VString "b@b" /\
  registered "users" "email" (snd out) /\
  store_get (index_prefix "users" "email" (KString "b@b")
             ++ [KString "01JBX0000000000000000000ZZ"]) (snd out) = None /\
  fst (create_index "users" "age"
         (snd (update_entry "users" user_a_email_patch empty))) = Ok tt.
Proof.
  vm_compute. repeat split; discriminate.
Qed.

End MissingField.

(** ** The shape of what the index engine writes *)

Section Shape.

Lemma backfill_touches_on (t f : string) :
  touches (index_entry_on t f) (backfill t f).
Proof.
  unfold backfill. apply touches_bind.
  - unfold get_all_entries. apply touches_bind; [apply touches_kv_list |].
    intros l. apply touches_ret.
  - intros entries. apply touches_for_each. intros e _.
    apply touches_bind; [apply touches_get_prop |]. intros key.
    destruct (truthy key); [| apply touches_ret].
    apply touches_bind; [apply touches_get_prop |]. intros id.
    apply touches_kv_set. intros k H.
    destruct (to_key_index_key _ _ _ _ H) as (pf & pv & pid & F & _ & E & ->).
    injection F as <-. now exists pv, pid.
Qed.

Lemma create_indexes_for_entry_writes (t : string) (o : object) (s : Store) :
  writes_only (index_entry_of t o s) s (snd (create_indexes_for_entry t o s)).
Proof.
  unfold create_indexes_for_entry, bind, kv_list. simpl to_key.
  apply touches_for_each. intros x Hx.
  apply touches_kv_set. intros k H. exists (snd x). repeat split; trivial.
  unfold indexes_of. now apply in_map.
Qed.

(** C10. Whatever [create_index] changes in the store is the marker of the
    index or a binding [["__indexes"; table; field; value; id] |-> v] whose
    value [v] is the key's last part; whatever [create_indexes_for_entry]
    changes is such a binding for a registered index field of the table,
    made of the record's value for that field and the record's id, and it
    holds the record's id. *)
Theorem index_writes_have_shape (t f : string) (o : object) (s : Store)
  (k : Key) :
  (store_get k (snd (create_index t f s)) = store_get k s \/
   k = marker t f \/
   exists fv id v,
     k = [KString "__indexes"; KString t; KString f; fv; id] /\
     store_get k (snd (create_index t f s)) = Some v /\
     to_key_part v = Some id) /\
  (store_get k (snd (create_indexes_for_entry t o s)) = store_get k s \/
   exists m pf fv id,
     In m (indexes_of t s) /\
     to_key_part m = Some pf /\
     to_key_part (obj_get o (to_property_key m)) = Some fv /\
     to_key_part (obj_get o "id") = Some id /\
     k = [KString "__indexes"; KString t; pf; fv; id] /\
     store_get k (snd (create_indexes_for_entry t o s))
     = Some (obj_get o "id")).
Proof.
  split.
  - destruct (store_get (marker t f) s) as [w |] eqn:E.
    + left. rewrite create_index_registered; trivial.
      unfold registered. congruence.
    + rewrite (create_index_fresh _ _ _ E).
      destruct (backfill_touches_on t f
                  (store_set (marker t f) (VString f) s) k)
        as [Same | (v & Hv & fv & id & -> & Hid)].
      * rewrite Same, store_get_set.
        destruct (key_eqb k (marker t f)) eqn:Ek.
        -- right. left. now apply key_eqb_eq.
        -- now left.
      * right. right. now exists fv, id, v.
  - destruct (create_indexes_for_entry_writes t o s k)
      as [Same | (v & Hv & m & Hm & Hk & ->)]; [now left | right].
    destruct (to_key_index_key _ _ _ _ Hk)
      as (pf & pv & pid & F & V & I & ->).
    now exists m, pf, pv, pid.
Qed.

End Shape.

(** ** Listing a table *)

Section Listing.

Lemma store_set_In (k : Key) (v : value) (s : Store) (b : KvEntry) :
  In b (store_set k v s) -> b = (k, v) \/ In b s.
Proof.
  induction s as [| [k' v'] s IH]; simpl.
  - intros [<- | []]. now left.
  - destruct (key_compare k k'); simpl.
    + intros [<- | H]; auto.
    + intros [<- | [<- | H]]; auto.
    + intros [<- | H]; auto. destruct (IH H); auto.
Qed.

Lemma store_set_hd (k k0 : Key) (v : value) (s : Store) :
  key_lt k0 k -> HdRel key_lt k0 (map fst s) ->
  HdRel key_lt k0 (map fst (store_set k v s)).
Proof.
  intros L H. destruct s as [| [k' v'] s]; simpl.
  - now constructor.
  - destruct (key_compare k k'); simpl; constructor; trivial.
    now inversion H.
Qed.

Lemma store_set_sorted (k : Key) (v : value) (s : Store) :
  sorted s -> sorted (store_set k v s).
Proof.
  unfold sorted. induction s as [| [k' v'] s IH]; simpl; intros H.
  - repeat constructor.
  - inversion H as [| ? ? Hs Hh]; subst.
    destruct (key_compare k k') eqn:E; simpl.
    + apply key_compare_eq in E. subst k'. now constructor.
    + constructor; trivial. now constructor.
    + constructor; [now apply IH |].
      apply store_set_hd; trivial. unfold key_lt.
      rewrite key_compare_antisym, E. reflexivity.
Qed.

Lemma store_set_append (k : Key) (v : value) (s : Store) :
  (forall b, In b s -> key_lt (fst b) k) -> store_set k v s = s ++ [(k, v)].
Proof.
  induction s as [| [k' v'] s IH]; simpl; intros H; trivial.
  assert (L : key_lt k' k) by (apply (H (k', v')); now left).
  unfold key_lt in L. rewrite key_compare_antisym, L. simpl.
  rewrite IH; trivial. intros b Hb. apply H. now right.
Qed.

Lemma table_only_set (t id : string) (v : value) (s : Store) :
  table_only t s -> table_only t (store_set [KString t; KString id] v s).
Proof.
  intros H b Hb. apply store_set_In in Hb. destruct Hb as [-> | Hb].
  - now exists id.
  - now apply H.
Qed.

Lemma filter_all {A} (f : A -> bool) (l : list A) :
  (forall x, In x l -> f x = true) -> filter f l = l.
Proof.
  induction l as [| x l IH]; intros H; trivial.
  cbn [filter]. rewrite (H x) by now left.
  f_equal. apply IH. intros y Hy. apply H. now right.
Qed.

Lemma filter_none {A} (f : A -> bool) (l : list A) :
  (forall x, In x l -> f x = false) -> filter f l = [].
Proof.
  induction l as [| x l IH]; intros H; trivial.
  cbn [filter]. rewrite (H x) by now left.
  apply IH. intros y Hy. apply H. now right.
Qed.

Lemma table_only_scan (t : string) (s : Store) :
  table_only t s -> store_list [KString t] None s = s.
Proof.
  intros H. unfold store_list, take_limit. apply filter_all.
  intros b Hb. destruct (H b Hb) as (id & ->).
  apply (has_prefix_refl_app [KString t] (KString id) []).
Qed.

Lemma table_only_no_index (t t' : string) (s : Store) :
  table_only t s -> indexes_of t' s = [].
Proof.
  intros H. unfold indexes_of, store_list, take_limit.
  rewrite filter_none; trivial.
  intros b Hb. destruct (H b Hb) as (id & E).
  destruct (has_prefix _ (fst b)) eqn:P; trivial.
  apply has_prefix_length in P. rewrite E in P. simpl in P. lia.
Qed.

Lemma create_indexes_for_entry_none (t : string) (o : object) (s : Store) :
  indexes_of t s = [] -> create_indexes_for_entry t o s = (Ok tt, s).
Proof.
  intros H. unfold indexes_of in H. apply map_eq_nil in H.
  unfold create_indexes_for_entry, bind, kv_list. simpl to_key.
  cbv beta iota. now rewrite H.
Qed.

Lemma create_entry_no_index (t : string) (c : creation) (s : Store) :
  indexes_of t s = [] ->
  create_entry t (c_value c) (c_id c) (c_date c) s
  = (Ok (record_of c),
     store_set [KString t; KString (c_id c)] (VObject (record_of c)) s).
Proof.
  intros H. rewrite create_entry_unfold. cbv zeta. fold (record_of c).
  rewrite create_indexes_for_entry_none; trivial.
  now rewrite indexes_of_set_record.
Qed.

Lemma create_entries_table (t : string) (cs : list creation) (s : Store) :
  table_only t s ->
  create_entries t cs s = (Ok (map record_of cs), stored_after t cs s).
Proof.
  revert s. induction cs as [| c cs IH]; intros s H; simpl; trivial.
  unfold create_entries in *. simpl. unfold bind at 1.
  rewrite create_entry_no_index by now apply table_only_no_index with t.
  unfold bind at 1. rewrite IH by now apply table_only_set.
  reflexivity.
Qed.

Lemma stored_after_table (t : string) (cs : list creation) (s : Store) :
  table_only t s -> table_only t (stored_after t cs s).
Proof.
  revert s. induction cs as [| c cs IH]; intros s H; simpl; trivial.
  apply IH. now apply table_only_set.
Qed.

Lemma stored_after_sorted (t : string) (cs : list creation) (s : Store) :
  sorted s -> sorted (stored_after t cs s).
Proof.
  revert s. induction cs as [| c cs IH]; intros s H; simpl; trivial.
  apply IH. now apply store_set_sorted.
Qed.

Lemma stored_after_In (t : string) (cs : list creation) (s : Store)
  (b : KvEntry) :
  In b (stored_after t cs s) -> In b s \/ In b (map (binding_of t) cs).
Proof.
  revert s. induction cs as [| c cs IH]; intros s; simpl; auto.
  intros H. destruct (IH _ H) as [Hs | Hc]; auto.
  apply store_set_In in Hs. destruct Hs as [-> | Hs]; auto.
Qed.

Lemma stored_after_get (t : string) (cs : list creation) (s : Store)
  (k : Key) :
  store_get k s <> None -> store_get k (stored_after t cs s) <> None.
Proof.
  revert s. induction cs as [| c cs IH]; intros s H; simpl; trivial.
  apply IH. rewrite store_get_set. now destruct (key_eqb _ _).
Qed.

Lemma stored_after_has (t : string) (cs : list creation) (s : Store)
  (c : creation) :
  In c cs ->
  store_get [KString t; KString (c_id c)] (stored_after t cs s) <> None.
Proof.
  revert s. induction cs as [| c' cs IH]; intros s; simpl; [tauto |].
  intros [-> | H].
  - apply stored_after_get. rewrite store_get_set_same. discriminate.
  - now apply IH.
Qed.

Lemma record_key_lt (t a b : string) :
  String_as_OT.lt a b -> key_lt [KString t; KString a] [KString t; KString b].
Proof.
  unfold key_lt, String_as_OT.lt. simpl. rewrite str_compare_refl.
  now intros ->.
Qed.

Lemma stored_after_increasing (t : string) (cs : list creation) (s : Store) :
  StronglySorted String_as_OT.lt (map c_id cs) ->
  (forall b c, In b s -> In c cs ->
               key_lt (fst b) [KString t; KString (c_id c)]) ->
  stored_after t cs s = s ++ map (binding_of t) cs.
Proof.
  revert s. induction cs as [| c cs IH]; intros s S H; simpl.
  - now rewrite app_nil_r.
  - simpl in S. apply StronglySorted_inv in S. destruct S as [S F].
    rewrite store_set_append by (intros b Hb; apply H; simpl; auto).
    rewrite IH; trivial.
    + now rewrite <- app_assoc.
    + intros b c' Hb Hc'. apply in_app_or in Hb.
      destruct Hb as [Hb | [<- | []]].
      * apply H; simpl; auto.
      * simpl. apply record_key_lt.
        rewrite Forall_forall in F. apply F. now apply in_map.
Qed.

Lemma ks_ret {A} (a : A) : keeps_sorted (ret a).
Proof. intros s H. exact H. Qed.

Lemma ks_bind {A B} (m : M A) (k : A -> M B) :
  keeps_sorted m -> (forall a, keeps_sorted (k a)) -> keeps_sorted (bind m k).
Proof.
  intros Hm Hk s H. unfold bind. specialize (Hm s H).
  destruct (m s) as [[a | e] s1]; simpl in *; trivial. now apply Hk.
Qed.

Lemma ks_for_each {A} (l : list A) (body : A -> M unit) :
  (forall x, keeps_sorted (body x)) -> keeps_sorted (for_each l body).
Proof.
  intros H. induction l as [| x l IH]; simpl.
  - apply ks_ret.
  - apply ks_bind; auto.
Qed.

Lemma ks_from_async {A B} (l : list A) (f : A -> M B) :
  (forall x, keeps_sorted (f x)) -> keeps_sorted (from_async l f).
Proof.
  intros H. induction l as [| x l IH]; simpl.
  - apply ks_ret.
  - apply ks_bind; auto. intros y. apply ks_bind; auto.
    intros ys. apply ks_ret.
Qed.

Lemma ks_kv_set (key : list value) (v : value) : keeps_sorted (kv_set key v).
Proof.
  intros s H. unfold kv_set. destruct (to_key key); simpl; trivial.
  now apply store_set_sorted.
Qed.

Lemma ks_kv_list (prefix : list value) (limit : option positive) :
  keeps_sorted (kv_list prefix limit).
Proof. intros s H. unfold kv_list. now destruct (to_key prefix). Qed.

Lemma ks_kv_get (key : list value) : keeps_sorted (kv_get key).
Proof. intros s H. unfold kv_get. now destruct (to_key key). Qed.

Lemma ks_get_prop (v : value) (f : string) : keeps_sorted (get_prop v f).
Proof. intros s H. now destruct v. Qed.

Lemma ks_create_indexes_for_entry (t : string) (o : object) :
  keeps_sorted (create_indexes_for_entry t o).
Proof.
  unfold create_indexes_for_entry. apply ks_bind; [apply ks_kv_list |].
  intros l. apply ks_for_each. intros m. apply ks_kv_set.
Qed.

Lemma ks_create_entry (t : string) (value : object) (id : string)
  (date_created : Z) :
  keeps_sorted (create_entry t value id date_created).
Proof.
  unfold create_entry. apply ks_bind; [apply ks_kv_set |]. intros _.
  apply ks_bind; [apply ks_create_indexes_for_entry |]. intros _.
  apply ks_ret.
Qed.

Lemma ks_update_entry (t : string) (entry : object) :
  keeps_sorted (update_entry t entry).
Proof.
  unfold update_entry. apply ks_bind; [apply ks_kv_set |]. intros _.
  apply ks_create_indexes_for_entry.
Qed.

Lemma ks_create_index (t f : string) : keeps_sorted (create_index t f).
Proof.
  unfold create_index. apply ks_bind; [apply ks_kv_get |].
  intros [e |]; [apply ks_ret |].
  apply ks_bind; [apply ks_kv_set |]. intros _.
  apply ks_bind.
  - unfold get_all_entries. apply ks_bind; [apply ks_kv_list |].
    intros l. apply ks_ret.
  - intros entries. apply ks_for_each. intros e.
    apply ks_bind; [apply ks_get_prop |]. intros key.
    destruct (truthy key); [| apply ks_ret].
    apply ks_bind; [apply ks_get_prop |]. intros id. apply ks_kv_set.
Qed.

Lemma filter_strongly_sorted (f : KvEntry -> bool) (s : Store) :
  StronglySorted key_lt (map fst s) ->
  StronglySorted key_lt (map fst (filter f s)).
Proof.
  induction s as [| b s IH]; simpl; intros H; trivial.
  apply StronglySorted_inv in H. destruct H as [Hs Hb].
  destruct (f b); simpl; [| now apply IH].
  constructor; [now apply IH |].
  rewrite Forall_forall in *. intros k Hk. apply Hb.
  apply in_map_iff in Hk. destruct Hk as (b' & <- & Hb').
  apply filter_In in Hb'. apply in_map. tauto.
Qed.

Lemma store_list_sorted (p : Key) (s : Store) :
  sorted s -> StronglySorted key_lt (map fst (store_list p None s)).
Proof.
  intros H. unfold store_list, take_limit. apply filter_strongly_sorted.
  apply Sorted_StronglySorted; trivial.
  intros a b c. apply key_lt_trans.
Qed.

(** C7, as the code has it. After a run of [create_entry] calls on a table,
    from any store in key order, the listing of the table is in strictly
    increasing order of the key, hence of the primary key. From the empty
    store moreover the run returns the created records, the listing is the
    whole store, it holds created records only and one under the id of every
    creation, and it is in creation order when the generated ids happen to
    increase from each call to the next. *)
Theorem listing_is_in_key_order (t : string) (cs : list creation)
  (s0 : Store) :
  sorted s0 ->
  let s := snd (create_entries t cs s0) in
  let listed := store_list [KString t] None s in
  get_all_entries_full t None s = (Ok listed, s) /\
  get_all_entries t None s = (Ok (map snd listed), s) /\
  StronglySorted key_lt (map fst listed) /\
  (s0 = empty ->
   fst (create_entries t cs s0) = Ok (map record_of cs) /\
   listed = s /\
   (forall b, In b s -> In b (map (binding_of t) cs)) /\
   (forall c, In c cs ->
      exists v, In ([KString t; KString (c_id c)], v) s) /\
   (StronglySorted String_as_OT.lt (map c_id cs) ->
    map snd listed = map VObject (map record_of cs))).
Proof.
  intros S0 s listed. split; [reflexivity |]. split; [reflexivity |].
  split.
  - apply store_list_sorted.
    apply (ks_from_async cs
             (fun c => create_entry t (c_value c) (c_id c) (c_date c))).
    + intros c. apply ks_create_entry.
    + exact S0.
  - intros ->. subst listed s.
    assert (T0 : table_only t empty) by (intros b []).
    rewrite (create_entries_table cs T0). simpl fst. simpl snd.
    pose proof (stored_after_table cs T0) as T.
    rewrite (table_only_scan T).
    repeat split.
    + intros b Hb. apply stored_after_In in Hb. now destruct Hb as [[] |].
    + intros c Hc.
      destruct (store_get [KString t; KString (c_id c)]
                  (stored_after t cs empty)) as [v |] eqn:G.
      * exists v. now apply store_get_In.
      * now apply (stored_after_has t cs empty) in Hc.
    + intros S. rewrite stored_after_increasing; trivial.
      * simpl. rewrite !map_map. reflexivity.
      * intros b c [].
Qed.

Lemma listing_is_in_key_order_witness :
  map snd (store_list [KString "empty"] None
             (snd (create_entries "empty" (rev two_creations) empty)))
  = map VObject (map record_of (rev two_creations)).
Proof.
  assert (S : sorted empty) by constructor.
  apply (proj2 (proj2 (proj2 (proj2
           (proj2 (proj2 (proj2
              (listing_is_in_key_order "empty" (rev two_creations) S)))
            eq_refl))))).
  simpl. repeat constructor.
Defined.

(** C7 as stated fails: of two records created within one millisecond the
    later one can get the smaller id, and is then listed first. *)
Lemma listing_creation_order_counterexample :
  ~ lists_in_creation_order "empty" two_creations.
Proof.
  intros H.
  specialize (H (map record_of two_creations)
                (snd (create_entries "empty" two_creations empty))
                eq_refl).
  vm_compute in H. discriminate H.
Qed.

End Listing.

(** ** Deleting *)

Section Delete.






Variables (t : string) (record : object).




End Delete.

Section DeleteEntry.



Lemma get_entry_state (t : string) (v : value) (s : Store) :
  snd (get_entry t v s) = s.
Proof.
  destruct (to_key_part v) as [id |] eqn:E.
  - now rewrite (get_entry_eq _ _ _ E).
  - now rewrite (get_entry_invalid _ _ _ E).
Qed.



End DeleteEntry.

(** ** The bindings of a reachable store *)

Section Reachable.

Lemma touches_weaken {A} (Q Q' : Key -> value -> Prop) (m : M A) :
  (forall k v, Q k v -> Q' k v) -> touches Q m -> touches Q' m.
Proof. intros H T s. eapply writes_only_weaken; [exact H | apply T]. Qed.

Lemma to_key_part_inj (v w : value) (p : KeyPart) :
  to_key_part v = Some p -> to_key_part w = Some p -> v = w.
Proof.
  destruct v, w; simpl; try discriminate; intros [= <-] [= E]; congruence.
Qed.

Lemma index_entry_kind (t : string) (k : Key) (x : value) :
  index_entry t k x -> binding_kind k x.
Proof. intros H. right. right. now exists t. Qed.

Lemma binding_kind_unique (k : Key) (x y : value) :
  List.length k <> 2 -> binding_kind k x -> binding_kind k y -> x = y.
Proof.
  intros N [L | [(t & f & -> & ->) | (t & f & fv & id & -> & Hx)]]
           [L' | [(t' & f' & E' & ->) | (t' & f2 & fv' & id' & E' & Hy)]];
    try contradiction; try discriminate.
  - injection E' as _ <-. reflexivity.
  - injection E' as _ _ _ <-. eapply to_key_part_inj; eassumption.
Qed.

Lemma store_ok_step (s s' : Store) :
  store_ok s -> writes_only binding_kind s s' -> store_ok s'.
Proof.
  intros O W k x G. destruct (W k) as [E | (v & Gv & Q)].
  - apply O. congruence.
  - congruence.
Qed.

Lemma persists (s s' : Store) (k : Key) (v : value) :
  store_ok s -> writes_only binding_kind s s' -> List.length k <> 2 ->
  store_get k s = Some v -> store_get k s' = Some v.
Proof.
  intros O W N G. destruct (W k) as [E | (x & Gx & Q)]; [congruence |].
  rewrite Gx. f_equal. eapply binding_kind_unique; eauto.
Qed.

Lemma create_indexes_for_entry_kind (t : string) (o : object) :
  touches binding_kind (create_indexes_for_entry t o).
Proof.
  eapply touches_weaken; [| apply create_indexes_for_entry_touches].
  apply index_entry_kind.
Qed.

Lemma record_write_kind (t : string) (idv v : value) :
  touches binding_kind (kv_set [VString t; idv] v).
Proof.
  apply touches_kv_set. intros k. simpl.
  destruct (to_key_part idv); [| discriminate]. intros [= <-]. now left.
Qed.

Lemma create_entry_kind (t : string) (value : object) (id : string)
  (date_created : Z) :
  touches binding_kind (create_entry t value id date_created).
Proof.
  unfold create_entry. apply touches_bind; [apply record_write_kind |].
  intros _. apply touches_bind; [apply create_indexes_for_entry_kind |].
  intros _. apply touches_ret.
Qed.

Lemma update_entry_kind (t : string) (entry : object) :
  touches binding_kind (update_entry t entry).
Proof.
  unfold update_entry. apply touches_bind; [apply record_write_kind |].
  intros _. apply create_indexes_for_entry_kind.
Qed.

Lemma backfill_kind (t f : string) : touches binding_kind (backfill t f).
Proof.
  eapply touches_weaken; [| apply backfill_touches_index].
  apply index_entry_kind.
Qed.

Lemma create_index_kind (t f : string) :
  touches binding_kind (create_index t f).
Proof.
  intros s. destruct (store_get (marker t f) s) as [v |] eqn:E.
  - rewrite create_index_registered; [apply writes_only_refl |].
    unfold registered. congruence.
  - rewrite (create_index_fresh _ _ _ E).
    eapply writes_only_trans; [| apply backfill_kind].
    apply writes_only_set. right. left. now exists t, f.
Qed.

Lemma run_operation_kind (op : operation) :
  touches binding_kind (run_operation op).
Proof.
  destruct op; simpl.
  - apply touches_bind; [apply create_entry_kind |].
    intros _. apply touches_ret.
  - apply update_entry_kind.
  - apply create_index_kind.
  - apply create_indexes_for_entry_kind.
Qed.

Lemma run_kind (ops : list operation) : touches binding_kind (run ops).
Proof. apply touches_for_each. intros op _. apply run_operation_kind. Qed.

Lemma store_ok_empty : store_ok empty.
Proof. intros k x. discriminate. Qed.

Lemma store_ok_run (ops : list operation) : store_ok (snd (run ops empty)).
Proof.
  eapply store_ok_step; [apply store_ok_empty | apply run_kind].
Qed.

Lemma store_ok_marker (t f : string) (m : value) (s : Store) :
  store_ok s -> store_get (marker t f) s = Some m -> m = VString f.
Proof.
  intros O G. eapply binding_kind_unique; [| apply (O _ _ G) |].
  - simpl. lia.
  - right. left. now exists t, f.
Qed.

Lemma ks_run (ops : list operation) : keeps_sorted (run ops).
Proof.
  apply ks_for_each. intros [t v id d | t e | t f | t v]; simpl.
  - apply ks_bind; [apply ks_create_entry | intros _; apply ks_ret].
  - apply ks_update_entry.
  - apply ks_create_index.
  - apply ks_create_indexes_for_entry.
Qed.

End Reachable.

(** ** Loops that complete *)

Section Loops.

Lemma for_each_cons {A} (x : A) (l : list A) (body : A -> M unit)
  (s : Store) :
  for_each (x :: l) body s
  = match fst (body x s) with
    | Ok _ => for_each l body (snd (body x s))
    | Throw e => (Throw e, snd (body x s))
    end.
Proof.
  cbn [for_each]. unfold bind. now destruct (body x s) as [[[] | e] s1].
Qed.

(** A loop that completes has completed every step, and what a step
    established is still there at the end when the later steps keep it. *)
Lemma for_each_completes {A} (I : Store -> Prop) (Post : A -> Store -> Prop)
  (l : list A) (body : A -> M unit) :
  (forall x s, I s -> I (snd (body x s))) ->
  (forall x s, I s -> fst (body x s) = Ok tt -> Post x (snd (body x s))) ->
  (forall x y s, I s -> Post x s -> Post x (snd (body y s))) ->
  forall s, I s -> fst (for_each l body s) = Ok tt ->
            forall x, In x l -> Post x (snd (for_each l body s)).
Proof.
  intros HI HP HS. induction l as [| y l IH]; intros s Is Hok x Hx.
  - destruct Hx.
  - rewrite for_each_cons in *.
    destruct (fst (body y s)) as [[] |] eqn:E; [| discriminate].
    destruct Hx as [<- | Hx].
    + clear IH Hok. pose proof (HP y s Is E) as P0.
      pose proof (HI y s Is) as I0.
      revert P0 I0. generalize (snd (body y s)). clear E Is s.
      induction l as [| z l IH]; intros s P Is; trivial.
      rewrite for_each_cons.
      destruct (fst (body z s)); [apply IH | cbn [snd]]; auto.
    + apply IH; auto.
Qed.

End Loops.

(** ** Index coverage *)

Section Coverage.

Lemma sorted_once (k : Key) (v : value) (s : Store) :
  sorted s -> store_get k s = Some v ->
  filter (fun b => key_eqb k (fst b)) s = [(k, v)].
Proof.
  unfold sorted. intros S.
  apply Sorted_StronglySorted in S; [| intros a b c; apply key_lt_trans].
  induction s as [| [k' v'] s IH]; cbn [store_get filter map fst] in *;
    [discriminate |].
  apply StronglySorted_inv in S. destruct S as [S F].
  destruct (key_eqb k k') eqn:E.
  - apply key_eqb_eq in E. subst k'. intros [= ->]. f_equal.
    apply filter_none. intros [k2 v2] H2. cbn [fst].
    rewrite Forall_forall in F.
    assert (L : key_lt k k2) by (apply F; apply (in_map fst _ _ H2)).
    unfold key_eqb. unfold key_lt in L. now rewrite L.
  - intros G. now apply IH.
Qed.

Lemma marker_listed (t f : string) (s : Store) :
  store_ok s -> registered t f s -> In (VString f) (indexes_of t s).
Proof.
  intros O R. unfold registered in R.
  destruct (store_get (marker t f) s) as [m |] eqn:G; [| contradiction].
  pose proof (store_ok_marker _ _ O G) as ->.
  unfold indexes_of.
  apply (in_map snd _ (marker t f, VString f)).
  apply store_list_In; trivial.
  apply (has_prefix_refl_app [KString "__indexes_for"; KString t]
           (KString f) []).
Qed.

Lemma index_write_kind (t : string) (f fv id : value) :
  touches binding_kind (kv_set (index_key t f fv id) id).
Proof.
  eapply touches_weaken; [| apply touches_index_write].
  apply index_entry_kind.
Qed.

Lemma kv_set_ok (key : list value) (v : value) (s : Store) :
  fst (kv_set key v s) = Ok tt ->
  exists k, to_key key = Some k /\ snd (kv_set key v s) = store_set k v s.
Proof.
  unfold kv_set. destruct (to_key key) as [k |]; [| discriminate].
  intros _. now exists k.
Qed.

Lemma index_key_length (t : string) (f fv id : value) (k : Key) :
  to_key (index_key t f fv id) = Some k -> List.length k = 5.
Proof.
  intros H. destruct (to_key_index_key _ _ _ _ H)
    as (? & ? & ? & _ & _ & _ & ->). reflexivity.
Qed.

(** After [create_indexes_for_entry] has completed, the record has its
    entry for every registered index field. *)
Lemma create_indexes_for_entry_covers (t : string) (o : object) (s : Store) :
  store_ok s ->
  fst (create_indexes_for_entry t o s) = Ok tt ->
  forall m, In m (indexes_of t s) ->
    exists k,
      to_key (index_key t m (obj_get o (to_property_key m))
                (obj_get o "id")) = Some k /\
      store_get k (snd (create_indexes_for_entry t o s))
      = Some (obj_get o "id").
Proof.
  intros O. unfold create_indexes_for_entry, indexes_of, bind, kv_list.
  simpl to_key. cbv beta iota. intros Hok m Hm.
  apply in_map_iff in Hm. destruct Hm as (e & <- & He).
  revert e He.
  apply (for_each_completes store_ok
           (fun e s' =>
              exists k,
                to_key (index_key t (snd e)
                          (obj_get o (to_property_key (snd e)))
                          (obj_get o "id")) = Some k /\
                store_get k s' = Some (obj_get o "id"))); trivial.
  - intros x s1 O1. eapply store_ok_step; [exact O1 |].
    apply index_write_kind.
  - intros x s1 O1 H1. destruct (kv_set_ok _ _ _ H1) as (k & Hk & ->).
    exists k. split; trivial. apply store_get_set_same.
  - intros x y s1 O1 (k & Hk & G). exists k. split; trivial.
    eapply persists; eauto.
    + apply index_write_kind.
    + erewrite index_key_length; eauto.
Qed.

End Coverage.

Section CoverageSteps.

Lemma backfill_step_kind (t f : string) (entry : value) :
  touches binding_kind
    (key <- get_prop entry f ;;
     if truthy key then
       id <- get_prop entry "id" ;;
       kv_set (index_key t (VString f) key id) id
     else ret tt).
Proof.
  apply touches_bind; [apply touches_get_prop |]. intros key.
  destruct (truthy key); [| apply touches_ret].
  apply touches_bind; [apply touches_get_prop |]. intros id.
  apply index_write_kind.
Qed.

(** After the backfill of [create_index] has completed, every record of
    the table with a non-empty value for the field has its entry. *)
Lemma backfill_covers (t f : string) (s : Store) :
  store_ok s ->
  fst (backfill t f s) = Ok tt ->
  forall id r,
    store_get [KString t; id] s = Some (VObject r) ->
    truthy (obj_get r f) = true ->
    exists k,
      to_key (entry_key_of t f r) = Some k /\
      store_get k (snd (backfill t f s)) = Some (obj_get r "id").
Proof.
  intros O. unfold backfill, get_all_entries, bind, kv_list, ret.
  simpl to_key. cbv beta iota. intros Hok id r G Tr.
  assert (Hin : In (VObject r) (map snd (store_list [KString t] None s))).
  { apply (in_map snd _ ([KString t; id], VObject r)).
    apply store_list_In; trivial.
    apply (has_prefix_refl_app [KString t] id []). }
  clear G. revert Tr.
  apply (for_each_completes store_ok
           (fun e s' =>
              forall r', e = VObject r' -> truthy (obj_get r' f) = true ->
                exists k,
                  to_key (entry_key_of t f r') = Some k /\
                  store_get k s' = Some (obj_get r' "id"))
           _ _) with (x := VObject r) (s := s); trivial.
  - intros x s1 O1. eapply store_ok_step; [exact O1 |].
    apply backfill_step_kind.
  - intros x s1 O1 H1 r' -> Tr'. cbn [get_prop] in H1 |- *.
    unfold bind, ret in H1 |- *. rewrite Tr' in H1 |- *.
    destruct (kv_set_ok _ _ _ H1) as (k & Hk & ->).
    exists k. split; trivial. apply store_get_set_same.
  - intros x y s1 O1 P r' E Tr'. destruct (P r' E Tr') as (k & Hk & G').
    exists k. split; trivial.
    eapply persists; eauto.
    + apply backfill_step_kind.
    + erewrite index_key_length; eauto.
Qed.

Lemma indexed_write_record (t : string) (id : KeyPart) (e : object)
  (s : Store) :
  store_ok s -> indexed s ->
  fst (create_indexes_for_entry t e
         (store_set [KString t; id] (VObject e) s)) = Ok tt ->
  indexed (snd (create_indexes_for_entry t e
                  (store_set [KString t; id] (VObject e) s))).
Proof.
  intros O C Hok.
  set (s1 := store_set [KString t; id] (VObject e) s) in *.
  assert (O1 : store_ok s1).
  { eapply store_ok_step; [exact O |]. apply writes_only_set. now left. }
  pose proof (create_indexes_for_entry_kind t e s1) as W.
  intros t' id' r f G R Tr.
  rewrite (writes_only_index_keep [KString t'; id']
             (create_indexes_for_entry_touches t e s1)) in G
    by (simpl; lia).
  unfold registered in R.
  rewrite (writes_only_index_keep (marker t' f)
             (create_indexes_for_entry_touches t e s1)) in R
    by (simpl; lia).
  fold (registered t' f s1) in R.
  unfold s1 in G. rewrite store_get_set in G.
  destruct (key_eqb [KString t'; id'] [KString t; id]) eqn:E.
  - apply key_eqb_eq in E. injection E as -> ->. injection G as <-.
    destruct (@create_indexes_for_entry_covers t e s1 O1 Hok (VString f)
                (marker_listed O1 R)) as (k & Hk & Gk).
    now exists k.
  - assert (R0 : registered t' f s).
    { unfold registered in *. unfold s1 in R.
      rewrite store_get_set_other in R; trivial. discriminate. }
    destruct (C _ _ _ _ G R0 Tr) as (k & Hk & Gk). exists k.
    split; trivial.
    pose proof (index_key_length _ _ _ _ Hk) as L.
    eapply persists; eauto.
    + lia.
    + unfold s1. rewrite store_get_set_other; trivial.
      intros ->. simpl in L. lia.
Qed.

Lemma indexed_create_index (t f : string) (s : Store) :
  store_ok s -> indexed s ->
  fst (create_index t f s) = Ok tt ->
  indexed (snd (create_index t f s)).
Proof.
  intros O C. destruct (store_get (marker t f) s) as [v |] eqn:E.
  - rewrite create_index_registered; trivial. unfold registered. congruence.
  - rewrite (create_index_fresh _ _ _ E).
    set (s1 := store_set (marker t f) (VString f) s).
    assert (O1 : store_ok s1).
    { eapply store_ok_step; [exact O |]. apply writes_only_set.
      right. left. now exists t, f. }
    intros Hok t' id' r f' G R Tr.
    rewrite (writes_only_index_keep [KString t'; id']
               (backfill_touches_index t f s1)) in G by (simpl; lia).
    unfold registered in R.
    rewrite (writes_only_index_keep (marker t' f')
               (backfill_touches_index t f s1)) in R by (simpl; lia).
    destruct (key_eqb (marker t' f') (marker t f)) eqn:Em.
    + apply key_eqb_eq in Em. injection Em as -> ->.
      exact (@backfill_covers t f s1 O1 Hok id' r G Tr).
    + unfold s1 in G, R. rewrite store_get_set, Em in R.
      rewrite store_get_set_other in G by discriminate.
      destruct (C _ _ _ _ G R Tr) as (k & Hk & Gk). exists k.
      split; trivial.
      pose proof (index_key_length _ _ _ _ Hk) as L.
      eapply persists; eauto.
      * apply backfill_kind.
      * lia.
      * unfold s1. rewrite store_get_set_other; trivial.
        intros ->. simpl in L. lia.
Qed.

Lemma indexed_index_only (t : string) (e : object) (s : Store) :
  store_ok s -> indexed s ->
  indexed (snd (create_indexes_for_entry t e s)).
Proof.
  intros O C t' id' r f G R Tr.
  rewrite (writes_only_index_keep [KString t'; id']
             (create_indexes_for_entry_touches t e s)) in G by (simpl; lia).
  unfold registered in R.
  rewrite (writes_only_index_keep (marker t' f)
             (create_indexes_for_entry_touches t e s)) in R by (simpl; lia).
  destruct (C _ _ _ _ G R Tr) as (k & Hk & Gk). exists k. split; trivial.
  pose proof (index_key_length _ _ _ _ Hk) as L.
  eapply persists; eauto.
  - apply create_indexes_for_entry_kind.
  - lia.
Qed.

Lemma indexed_operation (op : operation) (s : Store) :
  store_ok s -> indexed s ->
  fst (run_operation op s) = Ok tt ->
  indexed (snd (run_operation op s)).
Proof.
  intros O C. destruct op as [t v id d | t e | t f | t v];
    cbn [run_operation].
  - unfold bind. rewrite create_entry_unfold. cbv zeta.
    set (e := spread _ v).
    destruct (fst (create_indexes_for_entry t e _)) as [[] |] eqn:E;
      [| discriminate].
    intros _. cbn [snd ret]. now apply indexed_write_record.
  - destruct (to_key_part (obj_get e "id")) as [id |] eqn:E.
    + rewrite (update_entry_valid _ _ _ E). now apply indexed_write_record.
    + rewrite (update_entry_invalid _ _ _ E). discriminate.
  - now apply indexed_create_index.
  - intros _. now apply indexed_index_only.
Qed.

Lemma indexed_run (ops : list operation) (s : Store) :
  store_ok s -> indexed s ->
  fst (run ops s) = Ok tt -> indexed (snd (run ops s)).
Proof.
  unfold run. revert s. induction ops as [| op ops IH]; intros s O C.
  - trivial.
  - rewrite for_each_cons.
    destruct (fst (run_operation op s)) as [[] |] eqn:E; [| discriminate].
    apply IH.
    + eapply store_ok_step; [exact O | apply run_operation_kind].
    + now apply indexed_operation.
Qed.

End CoverageSteps.

Section Invariant.

(** C1, as the code has it. In every store that a run of [create_index],
    [create_entry], [update_entry] and [create_indexes_for_entry] calls
    reaches from the empty store with every call completing: each live
    record with a non-empty value for a registered index field of its table
    has its index entry, under the key ("__indexes", table, field, value,
    id), once, holding the id of the record. No operation removes or
    changes an index entry: an entry stays in the store whatever is run
    next, the entry of a value that a record had before an update
    included. *)
Theorem index_coverage_reachable (ops : list operation) :
  fst (run ops empty) = Ok tt ->
  live_records_indexed (snd (run ops empty)) /\
  (forall more k v,
     List.length k = 5 ->
     store_get k (snd (run ops empty)) = Some v ->
     store_get k (snd (run more (snd (run ops empty)))) = Some v).
Proof.
  intros Hok. split.
  - intros t id r f G R Tr.
    assert (C : indexed (snd (run ops empty))).
    { apply indexed_run; trivial.
      - apply store_ok_empty.
      - intros t' id' r' f' G'. discriminate G'. }
    destruct (C _ _ _ _ G R Tr) as (k & Hk & Gk). exists k.
    split; trivial. apply sorted_once; trivial.
    apply ks_run. constructor.
  - intros more k v L G.
    eapply persists; eauto.
    + apply store_ok_run.
    + apply run_kind.
    + lia.
Qed.

Lemma index_coverage_reachable_witness :
  live_records_indexed (snd (run email_change empty)) /\
  (forall more k v,
     List.length k = 5 ->
     store_get k (snd (run email_change empty)) = Some v ->
     store_get k (snd (run more (snd (run email_change empty)))) = Some v).
Proof.
  apply (index_coverage_reachable email_change). vm_compute. reflexivity.
Defined.

(** C1 as stated fails: after an update that changes the indexed field,
    the index entry of the old value is still in the store. *)
Lemma index_consistent_counterexample :
  ~ index_consistent (snd (run email_change empty)).
Proof.
  intros [_ H].
  destruct (H "users" "email" (KString "a@a")
              (KString "01JBX0000000000000000000ZZ")
              (VString "01JBX0000000000000000000ZZ"))
    as (r & G & E).
  - vm_compute. reflexivity.
  - vm_compute in G. injection G as <-. vm_compute in E. discriminate E.
Qed.

End Invariant.

(** ** The repository's tests, run on the model *)

Section Tests.

(** "Creating and getting entries" *)
Example test_creating_and_getting :
  fst ((user1 <- create_entry "users" user_a "01JBX0000000000000000000ZZ"
                   1730771156992 ;;
        user_db1 <- get_entry "users" (obj_get user1 "id") ;;
        ret (user_db1, VObject user1)) empty)
  = Ok (VObject user_a_stored, VObject user_a_stored).
Proof. reflexivity. Qed.

(** "Updating entry" *)
Example test_updating_entry :
  fst ((user <- create_entry "users" user_a "01JBX0000000000000000000ZZ"
                  1730771156992 ;;
        update_entry "users" (obj_set user "email" (VString "b@b")) ;;
        get_entry "users" (obj_get user "id")) empty)
  = Ok (VObject (obj_set user_a_stored "email" (VString "b@b"))).
Proof. reflexivity. Qed.

(** "Indexing" *)
Example test_indexing :
  fst ((init_indexes [("users", ["email"])] ;;
        create_entry "users" user_a "01JBX0000000000000000000ZZ"
          1730771156992 ;;
        get_entry_by_index "users" "email" (VString "a@a")) empty)
  = Ok (VObject user_a_stored).
Proof. reflexivity. Qed.

(** An index lookup that matches no entry hands [undefined] to [kv.get] as
    the id, which the store rejects. *)
Example get_entry_by_index_no_match :
  fst (get_entry_by_index "users" "email" (VString "b@a")
         store_with_indexed_user_a)
  = Throw TypeError.
Proof. reflexivity. Qed.

Example to_property_key_number :
  to_property_key (VNumber 0) = "0" /\ to_property_key (VNumber (-42)) = "-42".
Proof. split; reflexivity. Qed.

End Tests.

(** * Further properties *)

(** ** The read operations *)

Section Reads.

Lemma from_async_state {A B} (l : list A) (f : A -> M B) (s : Store) :
  (forall x s', snd (f x s') = s') -> snd (from_async l f s) = s.
Proof.
  intros H. revert s. induction l as [| x l IH]; intros s; trivial.
  cbn [from_async]. unfold bind at 1. specialize (H x s).
  destruct (f x s) as [[y | e] s1]; simpl in H; subst s1; trivial.
  unfold bind at 1. specialize (IH s).
  destruct (from_async l f s) as [[ys | e] s2]; simpl in IH; subst s2;
    reflexivity.
Qed.

Lemma kv_get_state (key : list value) (s : Store) : snd (kv_get key s) = s.
Proof. unfold kv_get. now destruct (to_key key). Qed.

Lemma kv_list_state (prefix : list value) (limit : option positive)
  (s : Store) :
  snd (kv_list prefix limit s) = s.
Proof. unfold kv_list. now destruct (to_key prefix). Qed.

(** X1. None of the read operations writes to the store, whether it
    returns or throws. *)
Theorem reads_leave_store (t f : string) (id v : value) (key : list value)
  (limit : option positive) (s : Store) :
  snd (get_from_key key s) = s /\
  snd (get_entry_full t id s) = s /\
  snd (get_entry t id s) = s /\
  snd (get_all_from_key key limit s) = s /\
  snd (get_all_entries_full t limit s) = s /\
  snd (get_all_entries t limit s) = s /\
  snd (get_entries_by_index t f v s) = s /\
  snd (get_entry_by_index t f v s) = s.
Proof.
  refine (conj _ (conj _ (conj _ (conj _ (conj _ (conj _ (conj _ _))))))).
  - apply kv_get_state.
  - apply kv_get_state.
  - apply get_entry_state.
  - apply kv_list_state.
  - apply kv_list_state.
  - unfold get_all_entries, bind.
    pose proof (kv_list_state [VString t] limit s) as H.
    destruct (kv_list _ _ s) as [[l | e] s1]; simpl in *; now subst.
  - unfold get_entries_by_index, bind, get_all_from_key.
    pose proof (kv_list_state
                  [VString "__indexes"; VString t; VString f; v] None s) as H.
    destruct (kv_list _ _ s) as [[l | e] s1]; simpl in H; subst s1; trivial.
    apply from_async_state. intros x s'. apply get_entry_state.
  - unfold get_entry_by_index, bind, get_all_from_key.
    pose proof (kv_list_state
                  [VString "__indexes"; VString t; VString f; v] None s) as H.
    destruct (kv_list _ _ s) as [[l | e] s1]; simpl in H; subst s1; trivial.
    apply get_entry_state.
Qed.

(** X2. Reading a record by id: an id under which nothing is stored gives
    [undefined] from [get_entry] and no entry from [get_entry_full], not an
    error; a stored value is returned as it is, with its key by
    [get_entry_full]; an id that cannot be part of a key makes both
    throw. *)
Theorem get_entry_edges (t : string) (id : value) (s : Store) :
  (forall p, to_key_part id = Some p ->
     store_get [KString t; p] s = None ->
     get_entry t id s = (Ok VUndefined, s) /\
     get_entry_full t id s = (Ok None, s)) /\
  (forall p x, to_key_part id = Some p ->
     store_get [KString t; p] s = Some x ->
     get_entry t id s = (Ok x, s) /\
     get_entry_full t id s = (Ok (Some ([KString t; p], x)), s)) /\
  (to_key_part id = None ->
   get_entry t id s = (Throw TypeError, s) /\
   get_entry_full t id s = (Throw TypeError, s)).
Proof.
  split; [| split].
  - intros p Hp N. rewrite (get_entry_eq _ _ _ Hp). unfold deref.
    rewrite N. split; trivial.
    unfold get_entry_full, get_from_key, kv_get. cbn [to_key to_key_part].
    now rewrite Hp, N.
  - intros p x Hp G. rewrite (get_entry_eq _ _ _ Hp). unfold deref.
    rewrite G. split; trivial.
    unfold get_entry_full, get_from_key, kv_get. cbn [to_key to_key_part].
    now rewrite Hp, G.
  - intros Hp. rewrite (get_entry_invalid _ _ _ Hp). split; trivial.
    unfold get_entry_full, get_from_key, kv_get. cbn [to_key to_key_part].
    now rewrite Hp.
Qed.

Lemma get_entry_edges_witness :
  get_entry "users" (VString "01JBX000000000000000000000")
    store_with_user_a
  = (Ok VUndefined, store_with_user_a) /\
  get_entry_full "users" (VString "01JBX000000000000000000000")
    store_with_user_a
  = (Ok None, store_with_user_a).
Proof.
  apply (proj1 (get_entry_edges "users"
                  (VString "01JBX000000000000000000000") store_with_user_a)
           (KString "01JBX000000000000000000000") eq_refl).
  reflexivity.
Defined.

End Reads.

(** ** Index lookups *)

Section LookupEdges.

(** X3. An index lookup with no matching entry: [get_entries_by_index]
    returns the empty list, while [get_entry_by_index] throws, because it
    asks the store for the id [undefined]. A lookup value that cannot be
    part of a key makes both throw. The store is as it was. *)
Theorem index_lookup_no_match (t f : string) (v : value) (s : Store) :
  (forall p, to_key_part v = Some p ->
     store_list (index_prefix t f p) None s = [] ->
     get_entries_by_index t f v s = (Ok [], s) /\
     get_entry_by_index t f v s = (Throw TypeError, s)) /\
  (to_key_part v = None ->
   get_entries_by_index t f v s = (Throw TypeError, s) /\
   get_entry_by_index t f v s = (Throw TypeError, s)).
Proof.
  split.
  - intros p Hp E.
    unfold get_entries_by_index, get_entry_by_index, bind.
    rewrite (index_scan _ _ _ s Hp), E. split; trivial.
  - intros Hp.
    unfold get_entries_by_index, get_entry_by_index, bind, get_all_from_key,
      kv_list.
    cbn [to_key to_key_part]. rewrite Hp. split; trivial.
Qed.

Lemma index_lookup_no_match_witness :
  get_entries_by_index "users" "email" (VString "b@a")
    store_with_indexed_user_a
  = (Ok [], store_with_indexed_user_a) /\
  get_entry_by_index "users" "email" (VString "b@a")
    store_with_indexed_user_a
  = (Throw TypeError, store_with_indexed_user_a).
Proof.
  apply (proj1 (index_lookup_no_match "users" "email" (VString "b@a")
                  store_with_indexed_user_a)
           (KString "b@a") eq_refl).
  reflexivity.
Defined.

(** X4. When [get_entries_by_index] returns a non-empty list,
    [get_entry_by_index] returns its first element. *)
Theorem get_entry_by_index_is_first (t f : string) (v y : value)
  (ys : list value) (s : Store) :
  fst (get_entries_by_index t f v s) = Ok (y :: ys) ->
  get_entry_by_index t f v s = (Ok y, s).
Proof.
  unfold get_entries_by_index, get_entry_by_index, bind, get_all_from_key,
    kv_list.
  destruct (to_key _) as [p |]; [| discriminate].
  destruct (store_list p None s) as [| e l]; [discriminate |].
  cbn [from_async]. unfold bind at 1.
  pose proof (get_entry_state t (snd e) s) as St.
  destruct (get_entry t (snd e) s) as [[y' | err] s1]; simpl in St;
    subst s1; [| discriminate].
  unfold bind at 1.
  destruct (from_async l _ s) as [[ys' | err] s2]; [| discriminate].
  now intros [= -> _].
Qed.

Lemma get_entry_by_index_is_first_witness :
  get_entry_by_index "users" "email" (VString "a@a")
    store_with_indexed_user_a
  = (Ok (VObject user_a_stored), store_with_indexed_user_a).
Proof.
  apply (@get_entry_by_index_is_first "users" "email" (VString "a@a")
           (VObject user_a_stored) [] store_with_indexed_user_a).
  reflexivity.
Defined.

Lemma get_entry_from_table (t : string) (v y : value) (s : Store) :
  fst (get_entry t v s) = Ok y -> from_table t s y.
Proof.
  destruct (to_key_part v) as [id |] eqn:E.
  - rewrite (get_entry_eq _ _ _ E). unfold deref. simpl.
    destruct (store_get [KString t; id] s) as [r |] eqn:G.
    + intros [= <-]. right. now exists id.
    + intros [= <-]. now left.
  - rewrite (get_entry_invalid _ _ _ E). discriminate.
Qed.

Lemma from_async_from_table (t : string) (l : list KvEntry)
  (ys : list value) (s : Store) :
  fst (from_async l (fun entry => get_entry t (snd entry)) s) = Ok ys ->
  Forall (from_table t s) ys.
Proof.
  revert ys. induction l as [| e l IH]; intros ys.
  - intros [= <-]. constructor.
  - cbn [from_async]. unfold bind at 1.
    pose proof (get_entry_state t (snd e) s) as St.
    pose proof (fun y => @get_entry_from_table t (snd e) y s) as Hy.
    destruct (get_entry t (snd e) s) as [[y | err] s1]; simpl in St;
      subst s1; [| discriminate].
    unfold bind at 1.
    destruct (from_async l _ s) as [[ys' | err] s2]; [| discriminate].
    intros [= <-]. constructor.
    + now apply Hy.
    + now apply IH.
Qed.

(** X5. An index lookup on a table only ever returns values stored in
    that table: each result of [get_entry_by_index] and of
    [get_entries_by_index] is [undefined] or what the store holds under
    (table, id) for some id. *)
Theorem index_lookup_stays_in_table (t f : string) (v : value) (s : Store) :
  (forall y, fst (get_entry_by_index t f v s) = Ok y -> from_table t s y) /\
  (forall ys, fst (get_entries_by_index t f v s) = Ok ys ->
              Forall (from_table t s) ys).
Proof.
  split.
  - intros y. unfold get_entry_by_index, bind, get_all_from_key, kv_list.
    destruct (to_key _); [| discriminate]. apply get_entry_from_table.
  - intros ys. unfold get_entries_by_index, bind, get_all_from_key, kv_list.
    destruct (to_key _); [| discriminate]. apply from_async_from_table.
Qed.

End LookupEdges.

(** ** What the write operations change *)

Section Effects.

(** X6. No run of operations of the class removes a binding: a key that
    is in the store is still in the store afterwards, whatever is run and
    whether or not it completes. *)
Theorem run_never_removes (ops : list operation) (s : Store) (k : Key) :
  store_get k s <> None -> store_get k (snd (run ops s)) <> None.
Proof.
  intros H. destruct (run_kind ops s k) as [E | (v & E & _)].
  - now rewrite E.
  - rewrite E. discriminate.
Qed.

Lemma run_never_removes_witness :
  store_get [KString "users"; KString "01JBX0000000000000000000ZZ"]
    (snd (run email_change store_with_user_a)) <> None.
Proof.
  apply (run_never_removes email_change store_with_user_a).
  vm_compute. discriminate.
Defined.

Lemma to_key_index_key_no_id (t : string) (f fv id : value) :
  to_key_part id = None -> to_key (index_key t f fv id) = None.
Proof.
  intros H. unfold index_key. cbn [to_key]. rewrite H.
  destruct (to_key_part (VString "__indexes")), (to_key_part (VString t)),
    (to_key_part f), (to_key_part fv); reflexivity.
Qed.

(** X7. [create_indexes_for_entry] on a record without a usable id (an
    unset id among them) writes nothing: it returns at once when no index
    is registered for the table and throws on the first index key
    otherwise. *)
Theorem create_indexes_for_entry_without_id (t : string) (o : object)
  (s : Store) :
  to_key_part (obj_get o "id") = None ->
  create_indexes_for_entry t o s
  = (match indexes_of t s with [] => Ok tt | _ :: _ => Throw TypeError end,
     s).
Proof.
  intros H. unfold create_indexes_for_entry, indexes_of, bind, kv_list.
  simpl to_key. cbv beta iota.
  destruct (store_list _ None s) as [| e l]; trivial.
  cbn [for_each map]. unfold bind, kv_set.
  now rewrite (to_key_index_key_no_id _ _ _ _ H).
Qed.

Lemma create_indexes_for_entry_without_id_witness :
  create_indexes_for_entry "users" [("email", VString "a@a")]
    store_with_two_indexes
  = (Throw TypeError, store_with_two_indexes).
Proof.
  apply (create_indexes_for_entry_without_id "users"
           [("email", VString "a@a")] store_with_two_indexes).
  reflexivity.
Defined.

Lemma record_then_index_effect (t : string) (p : KeyPart) (e : object)
  (s : Store) (k : Key) :
  let s' := snd (create_indexes_for_entry t e
                   (store_set [KString t; p] (VObject e) s)) in
  k = [KString t; p] \/
  store_get k s' = store_get k s \/
  exists m,
    In m (indexes_of t s) /\
    to_key (entry_key_for t e m) = Some k /\
    store_get k s' = Some (obj_get e "id").
Proof.
  intros s'. subst s'.
  destruct (key_eqb k [KString t; p]) eqn:Ek.
  - left. now apply key_eqb_eq.
  - right.
    destruct (create_indexes_for_entry_writes t e
                (store_set [KString t; p] (VObject e) s) k)
      as [Same | (v & Hv & m & Hm & Hk & ->)].
    + left. rewrite Same, store_get_set. now rewrite Ek.
    + right. exists m. rewrite indexes_of_set_record in Hm. auto.
Qed.

(** X8. What [create_entry] changes: the record is stored under
    (table, id); any other key it touches is the index entry of the new
    record for an index field registered for the table, and holds the
    record's id; nothing else in the store changes, whether or not the call
    completes. With no index registered for the table the call always
    returns the record and writes that one binding. *)
Theorem create_entry_effect (t : string) (value : object) (id : string)
  (date_created : Z) (s : Store) :
  let entry :=
    spread [("id", VString id); ("date_created", VDate date_created)] value in
  let s' := snd (create_entry t value id date_created s) in
  store_get [KString t; KString id] s' = Some (VObject entry) /\
  (forall k,
     k = [KString t; KString id] \/
     store_get k s' = store_get k s \/
     exists m,
       In m (indexes_of t s) /\
       to_key (entry_key_for t entry m) = Some k /\
       store_get k s' = Some (obj_get entry "id")) /\
  (indexes_of t s = [] ->
   create_entry t value id date_created s
   = (Ok entry, store_set [KString t; KString id] (VObject entry) s)).
Proof.
  intros entry s'. split; [| split].
  - pose proof (create_entry_stored t value id date_created s) as H.
    unfold deref in H. fold entry s' in H.
    now destruct (store_get [KString t; KString id] s'); subst.
  - intros k. subst s'. rewrite create_entry_unfold. cbn [snd].
    apply record_then_index_effect.
  - intros H.
    apply (create_entry_no_index t
             {| c_value := value; c_id := id; c_date := date_created |} s H).
Qed.

Lemma create_entry_effect_witness :
  create_entry "users" user_a "01JBX0000000000000000000ZZ" 1730771156992
    empty
  = (Ok user_a_stored,
     store_set [KString "users"; KString "01JBX0000000000000000000ZZ"]
       (VObject user_a_stored) empty).
Proof.
  apply (proj2 (proj2 (create_entry_effect "users" user_a
                         "01JBX0000000000000000000ZZ" 1730771156992
                         empty))).
  reflexivity.
Defined.

(** X9. What [update_entry] changes, for an id the store accepts: the key
    (table, id); any other key it touches is the index entry of the given
    field set for an index field registered for the table; every other
    record, every index marker and every other index entry is as before,
    whether or not the call completes. *)
Theorem update_entry_effect (t : string) (entry : object) (p : KeyPart)
  (s : Store) :
  to_key_part (obj_get entry "id") = Some p ->
  forall k,
    k = [KString t; p] \/
    store_get k (snd (update_entry t entry s)) = store_get k s \/
    exists m,
      In m (indexes_of t s) /\
      to_key (entry_key_for t entry m) = Some k /\
      store_get k (snd (update_entry t entry s))
      = Some (obj_get entry "id").
Proof.
  intros H k. rewrite (update_entry_valid _ _ _ H).
  apply record_then_index_effect.
Qed.

Lemma update_entry_effect_witness :
  marker "users" "email"
  = [KString "users"; KString "01JBX0000000000000000000ZZ"] \/
  store_get (marker "users" "email")
    (snd (update_entry "users" user_a_email_patch
            store_with_indexed_user_a))
  = store_get (marker "users" "email") store_with_indexed_user_a \/
  exists m,
    In m (indexes_of "users" store_with_indexed_user_a) /\
    to_key (entry_key_for "users" user_a_email_patch m)
    = Some (marker "users" "email") /\
    store_get (marker "users" "email")
      (snd (update_entry "users" user_a_email_patch
              store_with_indexed_user_a))
    = Some (obj_get user_a_email_patch "id").
Proof.
  apply (update_entry_effect "users" user_a_email_patch
           store_with_indexed_user_a
           (eq_refl (Some (KString "01JBX0000000000000000000ZZ")))
           (marker "users" "email")).
Defined.

End Effects.

(** ** The backfill of a new index *)

Section Backfill.

Variables (t f : string).

Lemma turn_object (o : object) (s : Store) :
  backfill_turn t f (VObject o) s
  = if truthy (obj_get o f)
    then kv_set (entry_key_of t f o) (obj_get o "id") s
    else (Ok tt, s).
Proof.
  unfold backfill_turn. cbn [get_prop]. unfold bind, ret.
  now destruct (truthy (obj_get o f)).
Qed.

Lemma turn_other (x : value) (s : Store) :
  (forall o, x <> VObject o) -> snd (backfill_turn t f x s) = s.
Proof.
  intros H. unfold backfill_turn.
  destruct x; try reflexivity. now contradiction (H fields).
Qed.

Lemma turn_string (x : string) (s : Store) :
  backfill_turn t f (VString x) s = (Ok tt, s).
Proof. reflexivity. Qed.

Lemma backfill_writes (s : Store) :
  writes_only (backfill_entry t f s) s (snd (backfill t f s)).
Proof.
  unfold backfill, get_all_entries, bind, kv_list, ret.
  simpl to_key. cbv beta iota.
  apply touches_for_each. intros x Hx s0.
  change (writes_only (backfill_entry t f s) s0 (snd (backfill_turn t f x s0))).
  destruct x as [| | b | n | n | x | ms | o];
    try (rewrite turn_other by discriminate; apply writes_only_refl).
  rewrite turn_object. destruct (truthy (obj_get o f)) eqn:Tr;
    [| apply writes_only_refl].
  apply touches_kv_set. intros k Hk. now exists o.
Qed.

Lemma listing_after_marker (s : Store) (r : object) :
  In (VObject r)
     (map snd (store_list [KString t] None
                 (store_set (marker t f) (VString f) s))) ->
  In (VObject r) (map snd (store_list [KString t] None s)).
Proof.
  intros H. apply in_map_iff in H. destruct H as ([k v] & E & H).
  simpl in E. subst v. unfold store_list, take_limit in *.
  apply filter_In in H. destruct H as [H P].
  apply store_set_In in H. destruct H as [H | H]; [discriminate H |].
  apply (in_map snd _ (k, VObject r)). apply filter_In. now split.
Qed.

Lemma strings_noop (l : list value) (s : Store) :
  Forall (fun x => x = VString f) l ->
  for_each l (backfill_turn t f) s = (Ok tt, s).
Proof.
  induction 1 as [| x l E _ IH]; trivial.
  rewrite for_each_cons, E, turn_string. exact IH.
Qed.

(** X10. What [create_index] changes: the marker of the index, and index
    entries on the field for records that the listing of the table holds
    with a non-empty value for the field, each holding the id of its
    record. No entry is written for a record whose value for the field is
    missing or empty. On a table without records, declaring a new index
    sets the marker and nothing else. *)
Theorem create_index_backfill (s : Store) (k : Key) :
  (store_get k (snd (create_index t f s)) = store_get k s \/
   k = marker t f \/
   exists r,
     In (VObject r) (map snd (store_list [KString t] None s)) /\
     truthy (obj_get r f) = true /\
     to_key (entry_key_of t f r) = Some k /\
     store_get k (snd (create_index t f s)) = Some (obj_get r "id")) /\
  (store_get (marker t f) s = None ->
   store_list [KString t] None s = [] ->
   create_index t f s = (Ok tt, store_set (marker t f) (VString f) s)).
Proof.
  split.
  - destruct (store_get (marker t f) s) as [w |] eqn:E.
    + left. rewrite create_index_registered; trivial.
      unfold registered. congruence.
    + rewrite (create_index_fresh _ _ _ E).
      destruct (backfill_writes (store_set (marker t f) (VString f) s) k)
        as [Same | (v & Hv & r & Hin & Tr & Hk & ->)].
      * rewrite Same, store_get_set.
        destruct (key_eqb k (marker t f)) eqn:Ek.
        -- right. left. now apply key_eqb_eq.
        -- now left.
      * right. right. exists r. repeat split; trivial.
        now apply listing_after_marker.
  - intros E Empty. rewrite (create_index_fresh _ _ _ E).
    unfold backfill, get_all_entries, bind, kv_list, ret.
    simpl to_key. cbv beta iota. apply strings_noop.
    apply Forall_forall. intros x Hx.
    apply in_map_iff in Hx. destruct Hx as ([k' v] & <- & H).
    unfold store_list, take_limit in *.
    apply filter_In in H. destruct H as [H P].
    apply store_set_In in H. destruct H as [[= _ ->] | H]; trivial.
    assert (In (k', v) (filter (fun e => has_prefix [KString t] (fst e)) s))
      by (apply filter_In; now split).
    rewrite Empty in *. contradiction.
Qed.

End Backfill.

Lemma create_index_backfill_witness :
  create_index "users" "email" empty
  = (Ok tt, store_set (marker "users" "email") (VString "email") empty).
Proof.
  apply (proj2 (create_index_backfill "users" "email" empty [])).
  - reflexivity.
  - reflexivity.
Defined.

(** ** Finding an indexed record *)

Section Finding.

Lemma sorted_In_get (k : Key) (v : value) (s : Store) :
  sorted s -> In (k, v) s -> store_get k s = Some v.
Proof.
  unfold sorted. intros S.
  apply Sorted_StronglySorted in S; [| intros a b c; apply key_lt_trans].
  induction s as [| [k' v'] s IH]; cbn [store_get map fst] in *;
    [intros [] |].
  apply StronglySorted_inv in S. destruct S as [S F].
  intros [[= -> ->] | H].
  - now rewrite key_eqb_refl.
  - rewrite Forall_forall in F.
    assert (L : key_lt k' k) by (apply F; apply (in_map fst _ _ H)).
    unfold key_eqb. unfold key_lt in L.
    rewrite key_compare_antisym, L. simpl. now apply IH.
Qed.

Lemma index_scan_values (t f : string) (p : KeyPart) (s : Store) :
  store_ok s -> sorted s ->
  forallb (fun e => is_key_part (snd e))
          (store_list (index_prefix t f p) None s) = true.
Proof.
  intros O S. apply forallb_forall. intros [k x] H.
  unfold store_list, take_limit in H. apply filter_In in H.
  destruct H as [H P]. cbn [fst snd] in *.
  pose proof (O _ _ (@sorted_In_get _ _ _ S H)) as B.
  destruct (has_prefix_inv _ _ P) as (a & rest & ->).
  destruct B as [L | [(t' & f' & E & _) | (t' & f' & fv & id & _ & Hx)]].
  - unfold index_prefix in L. simpl in L. lia.
  - discriminate E.
  - unfold is_key_part. now rewrite Hx.
Qed.

Lemma lookup_finds (t f : string) (id vp : KeyPart) (r : object)
  (s : Store) :
  store_ok s -> sorted s ->
  store_get [KString t; id] s = Some (VObject r) ->
  to_key_part (obj_get r "id") = Some id ->
  to_key_part (obj_get r f) = Some vp ->
  store_get [KString "__indexes"; KString t; KString f; vp; id] s
  = Some (obj_get r "id") ->
  exists ys,
    get_entries_by_index t f (obj_get r f) s = (Ok ys, s) /\
    In (VObject r) ys.
Proof.
  intros O S G Hid Hv E.
  exists (map (fun e => deref_value t (snd e) s)
              (store_list (index_prefix t f vp) None s)).
  split.
  - unfold get_entries_by_index, bind. rewrite (index_scan _ _ _ s Hv).
    apply from_async_get_entry. now apply index_scan_values.
  - apply in_map_iff.
    exists ([KString "__indexes"; KString t; KString f; vp; id],
            obj_get r "id").
    split.
    + unfold deref_value, deref. cbn [snd]. now rewrite Hid, G.
    + apply store_list_In; trivial.
      apply (has_prefix_refl_app (index_prefix t f vp) id []).
Qed.

(** X11. In a store that a run of operations has reached from the empty
    store with every call completing, a record stored under its own id is
    found through every index registered for its table: for a field with a
    non-empty value, [get_entries_by_index] on that value completes and its
    result holds the record. This covers the records created after the
    index was declared and those that were there before. *)
Theorem indexed_record_is_found (ops : list operation) (t f : string)
  (id : KeyPart) (r : object) :
  fst (run ops empty) = Ok tt ->
  store_get [KString t; id] (snd (run ops empty)) = Some (VObject r) ->
  to_key_part (obj_get r "id") = Some id ->
  registered t f (snd (run ops empty)) ->
  truthy (obj_get r f) = true ->
  exists ys,
    get_entries_by_index t f (obj_get r f) (snd (run ops empty))
    = (Ok ys, snd (run ops empty)) /\
    In (VObject r) ys.
Proof.
  intros Hok G Hid R Tr.
  assert (C : indexed (snd (run ops empty))).
  { apply indexed_run; trivial.
    - apply store_ok_empty.
    - intros t' id' r' f' G'. discriminate G'. }
  destruct (C _ _ _ _ G R Tr) as (k & Hk & Gk).
  unfold entry_key_of in Hk.
  destruct (to_key_index_key _ _ _ _ Hk) as (pf & pv & pid & F & V & I & ->).
  injection F as <-. rewrite Hid in I. injection I as <-.
  apply lookup_finds with (id := id) (vp := pv); trivial.
  - apply store_ok_run.
  - apply ks_run. constructor.
Qed.

Lemma indexed_record_is_found_witness :
  exists ys,
    get_entries_by_index "users" "email"
      (obj_get user_a_stored "email")
      (snd (run [CreateEntry "users" user_a "01JBX0000000000000000000ZZ"
                   1730771156992;
                 CreateIndex "users" "email"] empty))
    = (Ok ys,
       snd (run [CreateEntry "users" user_a "01JBX0000000000000000000ZZ"
                   1730771156992;
                 CreateIndex "users" "email"] empty)) /\
    In (VObject user_a_stored) ys.
Proof.
  apply (@indexed_record_is_found
           [CreateEntry "users" user_a "01JBX0000000000000000000ZZ"
              1730771156992;
            CreateIndex "users" "email"]
           "users" "email" (KString "01JBX0000000000000000000ZZ")
           user_a_stored).
  - reflexivity.
  - reflexivity.
  - reflexivity.
  - unfold registered. vm_compute. discriminate.
  - reflexivity.
Defined.

(** X12. In a store that a run of operations has reached from the empty
    store, the listing of a table whose name is not one of the two reserved
    prefixes holds exactly the bindings under (table, id): no index marker
    and no index entry is listed, and no record of another table. *)
Theorem listing_is_the_table (ops : list operation) (t : string) (k : Key)
  (v : value) :
  t <> "__indexes" -> t <> "__indexes_for" ->
  get_all_entries_full t None (snd (run ops empty))
  = (Ok (store_list [KString t] None (snd (run ops empty))),
     snd (run ops empty)) /\
  (In (k, v) (store_list [KString t] None (snd (run ops empty))) <->
   exists id, k = [KString t; id] /\
              store_get k (snd (run ops empty)) = Some v).
Proof.
  intros N1 N2. split; [reflexivity |].
  assert (S : sorted (snd (run ops empty))) by (apply ks_run; constructor).
  split.
  - intros H. unfold store_list, take_limit in H. apply filter_In in H.
    destruct H as [H P]. cbn [fst] in P.
    pose proof (@sorted_In_get _ _ _ S H) as G.
    destruct (has_prefix_inv _ _ P) as (a & rest & ->).
    pose proof (store_ok_run ops) as O.
    destruct (O _ _ G)
      as [L | [(t' & f' & E & _) | (t' & f' & fv & id & E & _)]].
    + destruct rest; [| simpl in L; lia]. now exists a.
    + injection E as E _. congruence.
    + injection E as E _. congruence.
  - intros (id & -> & G). apply store_list_In; trivial.
    apply (has_prefix_refl_app [KString t] id []).
Qed.

Lemma listing_is_the_table_witness :
  In ([KString "users"; KString "01JBX0000000000000000000ZZ"],
      VObject user_a_stored)
     (store_list [KString "users"] None
        (snd (run [CreateIndex "users" "email";
                   CreateEntry "users" user_a "01JBX0000000000000000000ZZ"
                     1730771156992] empty))).
Proof.
  apply (proj2 (@listing_is_the_table
                  [CreateIndex "users" "email";
                   CreateEntry "users" user_a "01JBX0000000000000000000ZZ"
                     1730771156992]
                  "users"
                  [KString "users"; KString "01JBX0000000000000000000ZZ"]
                  (VObject user_a_stored)
                  ltac:(discriminate) ltac:(discriminate))).
  exists (KString "01JBX0000000000000000000ZZ"). split; reflexivity.
Defined.

End Finding.

(** ** Repeating a write *)

Section Repeating.

Lemma store_set_same (k : Key) (v : value) (s : Store) :
  sorted s -> store_get k s = Some v -> store_set k v s = s.
Proof.
  unfold sorted. intros S.
  apply Sorted_StronglySorted in S; [| intros a b c; apply key_lt_trans].
  induction s as [| [k' v'] s IH]; cbn [store_get store_set map fst] in *;
    [discriminate |].
  apply StronglySorted_inv in S. destruct S as [S F].
  unfold key_eqb. destruct (key_compare k k') eqn:E.
  - apply key_compare_eq in E. subst k'. now intros [= ->].
  - intros G. exfalso. apply store_get_In in G.
    rewrite Forall_forall in F.
    assert (L : key_lt k' k) by (apply F; apply (in_map fst _ _ G)).
    pose proof (key_lt_trans E L) as R. unfold key_lt in R.
    rewrite key_compare_refl in R. discriminate.
  - intros G. now rewrite IH.
Qed.

Variables (t : string) (o : object).

Lemma index_loop_cons (e : KvEntry) (l : list KvEntry) (s : Store) :
  index_loop t o (e :: l) s
  = match to_key (entry_key_for t o (snd e)) with
    | Some k => index_loop t o l (store_set k (obj_get o "id") s)
    | None => (Throw TypeError, s)
    end.
Proof.
  unfold index_loop. cbn [for_each]. unfold bind at 1, kv_set at 1.
  now destruct (to_key (entry_key_for t o (snd e))).
Qed.

Lemma index_loop_outcome (l : list KvEntry) (s : Store) :
  fst (index_loop t o l s) = loop_outcome t o l.
Proof.
  unfold loop_outcome. revert s. induction l as [| e l IH]; intros s.
  - reflexivity.
  - rewrite index_loop_cons. cbn [map forallb]. unfold index_key_ok at 1.
    destruct (to_key (entry_key_for t o (snd e))); [apply IH | reflexivity].
Qed.

Lemma index_loop_sorted (l : list KvEntry) (s : Store) :
  sorted s -> sorted (snd (index_loop t o l s)).
Proof.
  apply ks_for_each. intros m. apply ks_kv_set.
Qed.

Lemma index_loop_keeps (l : list KvEntry) (s : Store) (k : Key) :
  store_get k s = Some (obj_get o "id") ->
  store_get k (snd (index_loop t o l s)) = Some (obj_get o "id").
Proof.
  revert s. induction l as [| e l IH]; intros s G; trivial.
  rewrite index_loop_cons.
  destruct (to_key (entry_key_for t o (snd e))) as [k' |]; trivial.
  apply IH. rewrite store_get_set. now destruct (key_eqb k k').
Qed.

Lemma index_loop_written (l : list KvEntry) (s : Store) (k : Key) :
  In k (written_keys t o l) ->
  store_get k (snd (index_loop t o l s)) = Some (obj_get o "id").
Proof.
  revert s. induction l as [| e l IH]; intros s; cbn [written_keys].
  - intros [].
  - rewrite index_loop_cons.
    destruct (to_key (entry_key_for t o (snd e))) as [k' |]; [| intros []].
    intros [<- | H].
    + apply index_loop_keeps. apply store_get_set_same.
    + now apply IH.
Qed.

Lemma index_loop_fixed (l : list KvEntry) (s : Store) :
  sorted s ->
  (forall k, In k (written_keys t o l) ->
             store_get k s = Some (obj_get o "id")) ->
  index_loop t o l s = (loop_outcome t o l, s).
Proof.
  intros S. induction l as [| e l IH]; intros H.
  - reflexivity.
  - rewrite index_loop_cons. unfold loop_outcome. cbn [map forallb].
    unfold index_key_ok at 1. cbn [written_keys] in H.
    destruct (to_key (entry_key_for t o (snd e))) as [k |]; trivial.
    rewrite store_set_same; trivial.
    + apply IH. intros k' Hk'. apply H. now right.
    + apply H. now left.
Qed.

Lemma index_loop_listing (p : Key) (l : list KvEntry) (s : Store) :
  (forall f fv id,
     has_prefix p [KString "__indexes"; KString t; f; fv; id] = false) ->
  store_list p None (snd (index_loop t o l s)) = store_list p None s.
Proof.
  intros P. revert s. induction l as [| e l IH]; intros s; trivial.
  rewrite index_loop_cons.
  destruct (to_key (entry_key_for t o (snd e))) as [k |] eqn:E; trivial.
  rewrite IH. apply store_list_set_other.
  unfold entry_key_for in E.
  destruct (to_key_index_key _ _ _ _ E) as (pf & pv & pid & _ & _ & _ & ->).
  apply P.
Qed.

Lemma create_indexes_for_entry_loop (s : Store) :
  create_indexes_for_entry t o s
  = index_loop t o (store_list [KString "__indexes_for"; KString t] None s) s.
Proof. reflexivity. Qed.

Lemma create_indexes_for_entry_again (s : Store) :
  sorted s ->
  create_indexes_for_entry t o (snd (create_indexes_for_entry t o s))
  = create_indexes_for_entry t o s.
Proof.
  intros S. rewrite !create_indexes_for_entry_loop.
  set (l := store_list [KString "__indexes_for"; KString t] None s).
  rewrite index_loop_listing by reflexivity. fold l.
  rewrite index_loop_fixed.
  - rewrite <- index_loop_outcome with (s := s).
    now destruct (index_loop t o l s).
  - now apply index_loop_sorted.
  - intros k. apply index_loop_written.
Qed.

End Repeating.

(** X13. Repeating a write changes nothing more. From a store in key
    order, a second [update_entry] with the same field set, and a second
    [create_indexes_for_entry] for the same record, end as the first call
    did and leave the store as the first call left it. *)
Theorem update_entry_idempotent (t : string) (entry : object) (s : Store) :
  sorted s ->
  update_entry t entry (snd (update_entry t entry s))
  = update_entry t entry s /\
  create_indexes_for_entry t entry
    (snd (create_indexes_for_entry t entry s))
  = create_indexes_for_entry t entry s.
Proof.
  intros S. split; [| now apply create_indexes_for_entry_again].
  destruct (to_key_part (obj_get entry "id")) as [p |] eqn:E.
  - rewrite !(update_entry_valid _ _ _ E).
    set (s1 := store_set [KString t; p] (VObject entry) s).
    assert (S1 : sorted s1) by now apply store_set_sorted.
    rewrite store_set_same.
    + now apply create_indexes_for_entry_again.
    + now apply ks_create_indexes_for_entry.
    + rewrite (writes_only_index_keep [KString t; p]
                 (create_indexes_for_entry_touches t entry s1))
        by (simpl; lia).
      apply store_get_set_same.
  - now rewrite !(update_entry_invalid _ _ _ E).
Qed.

Lemma update_entry_idempotent_witness :
  update_entry "users" user_a_email_patch
    (snd (update_entry "users" user_a_email_patch
            store_with_indexed_user_a))
  = update_entry "users" user_a_email_patch store_with_indexed_user_a /\
  create_indexes_for_entry "users" user_a_email_patch
    (snd (create_indexes_for_entry "users" user_a_email_patch
            store_with_indexed_user_a))
  = create_indexes_for_entry "users" user_a_email_patch
      store_with_indexed_user_a.
Proof.
  apply (@update_entry_idempotent "users" user_a_email_patch
           store_with_indexed_user_a).
  unfold sorted. vm_compute. repeat constructor.
Defined.

(** ** The record that [create_entry] builds *)

Section RecordFields.

Lemma obj_get_set_same (o : object) (f : string) (v : value) :
  obj_get (obj_set o f v) f = v.
Proof.
  induction o as [| [g w] o IH]; simpl.
  - now rewrite String.eqb_refl.
  - destruct (String.eqb f g) eqn:E; simpl; now rewrite E.
Qed.

Lemma obj_has_false (o : object) (f : string) :
  ~ In f (map fst o) -> obj_has o f = false.
Proof.
  unfold obj_has. induction o as [| [g w] o IH]; simpl; trivial.
  intros H. rewrite IH by (intros Hf; apply H; now right).
  destruct (String.eqb f g) eqn:E; trivial.
  apply String.eqb_eq in E. exfalso. apply H. left. now symmetry.
Qed.

Lemma obj_get_spread (extra o : object) (f : string) :
  NoDup (map fst extra) ->
  obj_get (spread o extra) f
  = if obj_has extra f then obj_get extra f else obj_get o f.
Proof.
  unfold spread. revert o.
  induction extra as [| [g v] extra IH]; intros o N; trivial.
  cbn [fold_left fst snd map] in *. apply NoDup_cons_iff in N.
  destruct N as [Ng N]. rewrite (IH _ N).
  unfold obj_has. cbn [map fst existsb obj_get].
  destruct (String.eqb f g) eqn:E.
  - apply String.eqb_eq in E. subst g.
    fold (obj_has extra f). rewrite (obj_has_false _ _ Ng).
    apply obj_get_set_same.
  - cbn [orb]. fold (obj_has extra f).
    destruct (obj_has extra f); trivial.
    apply obj_get_set_other. intros ->. now rewrite String.eqb_refl in E.
Qed.

(** X14. The record that [create_entry] returns, for a field set whose
    property names are distinct: every property of the field set with the
    value given, [id] and [date_created] as generated unless the field set
    has properties of those names, which then win, and no other
    property. *)
Theorem created_record_fields (t : string) (value : object) (id : string)
  (date_created : Z) (s : Store) (r : object) (f : string) :
  NoDup (map fst value) ->
  fst (create_entry t value id date_created s) = Ok r ->
  obj_get r f
  = if obj_has value f then obj_get value f
    else if String.eqb f "id" then VString id
    else if String.eqb f "date_created" then VDate date_created
    else VUndefined.
Proof.
  intros N. rewrite create_entry_unfold. cbn [fst].
  destruct (fst (create_indexes_for_entry _ _ _)); [| discriminate].
  intros [= <-]. now rewrite obj_get_spread.
Qed.

Lemma created_record_fields_witness :
  obj_get user_a_stored "date_created"
  = if obj_has user_a "date_created" then obj_get user_a "date_created"
    else if String.eqb "date_created" "id"
         then VString "01JBX0000000000000000000ZZ"
    else if String.eqb "date_created" "date_created"
         then VDate 1730771156992
    else VUndefined.
Proof.
  apply (@created_record_fields "users" user_a
           "01JBX0000000000000000000ZZ" 1730771156992 empty user_a_stored
           "date_created").
  - simpl. repeat constructor; simpl; intuition discriminate.
  - reflexivity.
Defined.

End RecordFields.

(** ** The migration script *)

Section Migration.

Variable datetime_string : Z -> string.

Lemma to_key_of_key (k : Key) : to_key (of_key k) = Some k.
Proof.
  induction k as [| p k IH]; trivial.
  cbn [of_key map to_key] in *. unfold of_key in IH. rewrite IH.
  now destruct p.
Qed.

Lemma convert_field_twice (x : value) :
  convert_field datetime_string (convert_field datetime_string x)
  = convert_field datetime_string x.
Proof. now destruct x. Qed.

Lemma obj_get_absent (o : object) (f : string) :
  ~ In f (map fst o) -> obj_get o f = VUndefined.
Proof.
  induction o as [| [g w] o IH]; simpl; trivial.
  intros H. destruct (String.eqb f g) eqn:E.
  - apply String.eqb_eq in E. exfalso. apply H. left. now symmetry.
  - apply IH. intros Hf. apply H. now right.
Qed.

Lemma convert_step_get (val : object) (k f : string) :
  obj_get match obj_get val k with
          | VDate ms => obj_set val k (VString (datetime_string ms))
          | _ => val
          end f
  = if String.eqb f k then convert_field datetime_string (obj_get val f)
    else obj_get val f.
Proof.
  destruct (String.eqb f k) eqn:E.
  - apply String.eqb_eq in E. subst k.
    destruct (obj_get val f) eqn:G; simpl; try now rewrite G.
    apply obj_get_set_same.
  - assert (N : f <> k) by (intros ->; now rewrite String.eqb_refl in E).
    destruct (obj_get val k); trivial. now apply obj_get_set_other.
Qed.

Lemma convert_fold_get (keys : list string) (val : object) (f : string) :
  obj_get (fold_left
             (fun val value_key =>
                match obj_get val value_key with
                | VDate ms => obj_set val value_key
                                (VString (datetime_string ms))
                | _ => val
                end) keys val) f
  = if in_dec string_dec f keys
    then convert_field datetime_string (obj_get val f)
    else obj_get val f.
Proof.
  revert val. induction keys as [| k keys IH]; intros val; trivial.
  cbn [fold_left]. rewrite IH, convert_step_get.
  destruct (String.eqb f k) eqn:E.
  - apply String.eqb_eq in E. subst k.
    destruct (in_dec string_dec f (f :: keys)) as [_ | N];
      [| exfalso; apply N; now left].
    destruct (in_dec string_dec f keys); trivial.
    apply convert_field_twice.
  - assert (N : k <> f) by (intros ->; now rewrite String.eqb_refl in E).
    destruct (in_dec string_dec f keys) as [I | I],
             (in_dec string_dec f (k :: keys)) as [J | J]; trivial.
    + exfalso. apply J. now right.
    + exfalso. destruct J as [J | J]; [now apply N | now apply I].
Qed.

Lemma convert_dates_get (o : object) (f : string) :
  obj_get (convert_dates datetime_string o) f
  = convert_field datetime_string (obj_get o f).
Proof.
  unfold convert_dates. rewrite convert_fold_get.
  destruct (in_dec string_dec f (map fst o)) as [I | I]; trivial.
  now rewrite (obj_get_absent _ _ I).
Qed.

Lemma convert_dates_none (o : object) :
  (forall f ms, obj_get o f <> VDate ms) ->
  convert_dates datetime_string o = o.
Proof.
  intros H. unfold convert_dates. generalize (map fst o) as keys.
  induction keys as [| k keys IH]; trivial.
  cbn [fold_left]. destruct (obj_get o k) eqn:G; trivial.
  now contradiction (H k ms).
Qed.

Lemma convert_dates_twice (o : object) :
  convert_dates datetime_string (convert_dates datetime_string o)
  = convert_dates datetime_string o.
Proof.
  apply convert_dates_none. intros f ms. rewrite convert_dates_get.
  now destruct (obj_get o f).
Qed.

Lemma migrate_value_twice (v : value) :
  migrate_value datetime_string (migrate_value datetime_string v)
  = migrate_value datetime_string v.
Proof.
  destruct v; trivial. simpl. now rewrite convert_dates_twice.
Qed.

Lemma migrate_value_other (v : value) :
  typeof_object v = false -> migrate_value datetime_string v = v.
Proof. now destruct v. Qed.

(** The loop of the script over the entries it has listed. *)
Lemma migrate_loop (l : list KvEntry) (s : Store) :
  NoDup (map fst l) ->
  (forall k v, In (k, v) l -> store_get k s = Some v) ->
  let r := for_each l (fun e =>
             if typeof_object (snd e) then
               kv_set (of_key (fst e))
                      (migrate_value datetime_string (snd e))
             else ret tt) s in
  fst r = Ok tt /\
  forall k,
    (In k (map fst l) ->
     store_get k (snd r)
     = option_map (migrate_value datetime_string) (store_get k s)) /\
    (~ In k (map fst l) -> store_get k (snd r) = store_get k s).
Proof.
  revert s. induction l as [| [k1 v1] l IH]; intros s N H.
  - split; [reflexivity |]. intros k. split; [intros [] | reflexivity].
  - cbn [map fst] in N. apply NoDup_cons_iff in N. destruct N as [N1 N].
    cbv zeta. rewrite for_each_cons. cbn [fst snd].
    set (s1 := if typeof_object v1
               then store_set k1 (migrate_value datetime_string v1) s
               else s).
    assert (E1 : (if typeof_object v1
                  then kv_set (of_key k1)
                         (migrate_value datetime_string v1)
                  else ret tt) s = (Ok tt, s1)).
    { unfold s1. destruct (typeof_object v1); trivial.
      unfold kv_set. now rewrite to_key_of_key. }
    rewrite E1. cbn [fst snd].
    assert (G1 : forall k,
               store_get k s1
               = if key_eqb k k1
                 then Some (migrate_value datetime_string v1)
                 else store_get k s).
    { intros k. unfold s1. destruct (typeof_object v1) eqn:T.
      - apply store_get_set.
      - destruct (key_eqb k k1) eqn:E; trivial.
        apply key_eqb_eq in E. rewrite E.
        rewrite (migrate_value_other _ T). apply H. now left. }
    assert (H1 : forall k v, In (k, v) l -> store_get k s1 = Some v).
    { intros k v Hk. rewrite G1.
      destruct (key_eqb k k1) eqn:E.
      - apply key_eqb_eq in E. subst k. exfalso. apply N1.
        apply (in_map fst _ _ Hk).
      - apply H. now right. }
    destruct (IH s1 N H1) as (Ok1 & R). split; [exact Ok1 |].
    intros k. destruct (R k) as [Rin Rout]. split.
    + intros [Ek | Hk].
      * cbn [fst] in Ek. rewrite <- Ek.
        rewrite (proj2 (R k1) N1), G1, key_eqb_refl.
        now rewrite (H k1 v1) by now left.
      * rewrite (Rin Hk), G1.
        destruct (key_eqb k k1) eqn:E; trivial.
        apply key_eqb_eq in E. subst k. contradiction.
    + intros Hk. rewrite Rout by (intros I; apply Hk; now right).
      rewrite G1. destruct (key_eqb k k1) eqn:E; trivial.
      apply key_eqb_eq in E. subst k. exfalso. apply Hk. now left.
Qed.

Lemma sorted_listing_nodup (p : Key) (s : Store) :
  sorted s -> NoDup (map fst (store_list p None s)).
Proof.
  intros S. pose proof (store_list_sorted p S) as L.
  induction L as [| k l L IH F]; constructor; trivial.
  intros I. rewrite Forall_forall in F. specialize (F _ I).
  unfold key_lt in F. rewrite key_compare_refl in F. discriminate.
Qed.

(** X15. On a store in key order the migration script completes, and
    afterwards every key holds what it held with the top-level [Date]
    properties of a stored object turned into datetime strings: no key is
    added or removed, values that are not objects and properties that are
    not dates are as they were, and dates nested deeper are not reached. *)
Theorem migrate_converts (s : Store) (k : Key) :
  sorted s -> k <> [] ->
  fst (migrate datetime_string s) = Ok tt /\
  store_get k (snd (migrate datetime_string s))
  = option_map (migrate_value datetime_string) (store_get k s) /\
  (forall o f,
     store_get k s = Some (VObject o) ->
     exists o',
       store_get k (snd (migrate datetime_string s)) = Some (VObject o') /\
       obj_get o' f = convert_field datetime_string (obj_get o f)).
Proof.
  intros S Nk. unfold migrate, bind, kv_list. cbn [to_key]. cbv beta iota.
  destruct (migrate_loop (store_list [] None s) s) as (Ok1 & R).
  - now apply sorted_listing_nodup.
  - intros k' v' H. unfold store_list, take_limit in H.
    apply filter_In in H. now apply sorted_In_get.
  - cbv zeta in Ok1, R. split; [exact Ok1 |].
    assert (G : store_get k
                  (snd (for_each (store_list [] None s)
                          (fun e =>
                             if typeof_object (snd e)
                             then kv_set (of_key (fst e))
                                    (migrate_value datetime_string (snd e))
                             else ret tt) s))
                = option_map (migrate_value datetime_string)
                             (store_get k s)).
    { destruct (R k) as [Rin Rout].
      assert (D : In k (map fst (store_list [] None s)) \/
                  store_get k s = None).
      { destruct (store_get k s) as [v |] eqn:G; [left | now right].
        apply (in_map fst _ (k, v)). apply store_list_In; trivial.
        destruct k; [now contradiction Nk | reflexivity]. }
      destruct D as [D | D]; [now apply Rin |].
      rewrite Rout; [now rewrite D |].
      intros I. apply in_map_iff in I. destruct I as ([k' v'] & E & I).
      simpl in E. subst k'. unfold store_list, take_limit in I.
      apply filter_In in I. destruct I as [I _].
      rewrite (@sorted_In_get _ _ _ S I) in D. discriminate. }
    split; [exact G |].
    intros o f Ho. rewrite Ho in G. simpl in G.
    exists (convert_dates datetime_string o). split; trivial.
    apply convert_dates_get.
Qed.

Lemma ks_migrate : keeps_sorted (migrate datetime_string).
Proof.
  unfold migrate. apply ks_bind; [apply ks_kv_list |].
  intros l. apply ks_for_each. intros e.
  destruct (typeof_object (snd e)); [apply ks_kv_set | apply ks_ret].
Qed.

(** X16. After the migration no stored object has a [Date] as a property,
    and running the script a second time changes no binding. *)
Theorem migrate_leaves_no_date (s : Store) (k : Key) :
  sorted s -> k <> [] ->
  (forall o f ms,
     store_get k (snd (migrate datetime_string s)) = Some (VObject o) ->
     obj_get o f <> VDate ms) /\
  store_get k (snd (migrate datetime_string
                      (snd (migrate datetime_string s))))
  = store_get k (snd (migrate datetime_string s)).
Proof.
  intros S Nk.
  destruct (@migrate_converts s k S Nk) as (_ & G & _).
  split.
  - intros o f ms Ho. rewrite G in Ho.
    destruct (store_get k s) as [[| | | | | | | o0] |]; try discriminate.
    simpl in Ho. injection Ho as <-. rewrite convert_dates_get.
    now destruct (obj_get o0 f).
  - destruct (@migrate_converts _ k (ks_migrate S) Nk) as (_ & G2 & _).
    rewrite G2, G. destruct (store_get k s); trivial.
    simpl. now rewrite migrate_value_twice.
Qed.

End Migration.

Lemma migrate_converts_witness :
  fst (migrate (fun _ => "2024-11-05T01:45:56.992Z") store_with_user_a)
  = Ok tt /\
  store_get [KString "users"; KString "01JBX0000000000000000000ZZ"]
    (snd (migrate (fun _ => "2024-11-05T01:45:56.992Z") store_with_user_a))
  = option_map (migrate_value (fun _ => "2024-11-05T01:45:56.992Z"))
      (store_get [KString "users"; KString "01JBX0000000000000000000ZZ"]
         store_with_user_a) /\
  (forall o f,
     store_get [KString "users"; KString "01JBX0000000000000000000ZZ"]
       store_with_user_a = Some (VObject o) ->
     exists o',
       store_get [KString "users"; KString "01JBX0000000000000000000ZZ"]
         (snd (migrate (fun _ => "2024-11-05T01:45:56.992Z")
                 store_with_user_a)) = Some (VObject o') /\
       obj_get o' f
       = convert_field (fun _ => "2024-11-05T01:45:56.992Z") (obj_get o f)).
Proof.
  apply (@migrate_converts (fun _ => "2024-11-05T01:45:56.992Z")
           store_with_user_a
           [KString "users"; KString "01JBX0000000000000000000ZZ"]).
  - unfold sorted. vm_compute. repeat constructor.
  - discriminate.
Defined.

Lemma migrate_leaves_no_date_witness :
  store_get [KString "users"; KString "01JBX0000000000000000000ZZ"]
    (snd (migrate (fun _ => "2024-11-05T01:45:56.992Z")
            (snd (migrate (fun _ => "2024-11-05T01:45:56.992Z")
                    store_with_user_a))))
  = store_get [KString "users"; KString "01JBX0000000000000000000ZZ"]
      (snd (migrate (fun _ => "2024-11-05T01:45:56.992Z")
              store_with_user_a)).
Proof.
  apply (proj2 (@migrate_leaves_no_date
                  (fun _ => "2024-11-05T01:45:56.992Z") store_with_user_a
                  [KString "users"; KString "01JBX0000000000000000000ZZ"]
                  ltac:(unfold sorted; vm_compute; repeat constructor)
                  ltac:(discriminate))).
Defined.

(** ** When a write throws *)

Section Throws.

Lemma create_indexes_for_entry_outcome (t : string) (o : object)
  (s : Store) :
  fst (create_indexes_for_entry t o s)
  = if indexable t o s then Ok tt else Throw TypeError.
Proof.
  rewrite create_indexes_for_entry_loop, index_loop_outcome.
  reflexivity.
Qed.

(** X17. [create_entry] and [update_entry] complete exactly when the
    store accepts the index key of the record for every index field
    registered for the table. When one of these keys is refused (the
    record lacks the field, or holds there a value that cannot be part of a
    key) the call throws a [TypeError], and the record has been stored all
    the same. *)
Theorem write_outcome (t : string) (value : object) (id : string)
  (date_created : Z) (entry : object) (p : KeyPart) (s : Store) :
  to_key_part (obj_get entry "id") = Some p ->
  let created :=
    spread [("id", VString id); ("date_created", VDate date_created)] value in
  fst (create_entry t value id date_created s)
  = (if indexable t created s then Ok created else Throw TypeError) /\
  store_get [KString t; KString id]
    (snd (create_entry t value id date_created s))
  = Some (VObject created) /\
  fst (update_entry t entry s)
  = (if indexable t entry s then Ok tt else Throw TypeError) /\
  store_get [KString t; p] (snd (update_entry t entry s))
  = Some (VObject entry).
Proof.
  intros Hp created. refine (conj _ (conj _ (conj _ _))).
  - rewrite create_entry_unfold. cbn [fst]. fold created.
    rewrite create_indexes_for_entry_outcome.
    rewrite indexes_of_set_record_indexable.
    now destruct (indexable t created s).
  - pose proof (create_entry_stored t value id date_created s) as H.
    unfold deref in H. fold created in H.
    now destruct (store_get [KString t; KString id] _); subst.
  - rewrite (update_entry_valid _ _ _ Hp).
    rewrite create_indexes_for_entry_outcome.
    now rewrite indexes_of_set_record_indexable.
  - pose proof (update_entry_stored t entry s Hp) as H.
    unfold deref in H.
    now destruct (store_get [KString t; p] _); subst.
Qed.

Lemma write_outcome_witness :
  fst (create_entry "users" user_a "01JBX0000000000000000000ZZ"
         1730771156992 store_with_two_indexes)
  = (if indexable "users" user_a_stored store_with_two_indexes
     then Ok user_a_stored else Throw TypeError).
Proof.
  apply (proj1 (@write_outcome "users" user_a
                  "01JBX0000000000000000000ZZ" 1730771156992
                  user_a_email_patch
                  (KString "01JBX0000000000000000000ZZ")
                  store_with_two_indexes eq_refl)).
Defined.

(** X18. An index on [date_created] cannot be written: in a store that a
    run of operations has reached from the empty store and where that
    index is registered for the table, every [create_entry] on the table
    with a field set that has no [date_created] of its own throws a
    [TypeError], the generated [Date] being no part of a key; the record is
    stored nevertheless. *)
Theorem date_created_index_throws (ops : list operation) (t : string)
  (value : object) (id : string) (date_created : Z) :
  registered t "date_created" (snd (run ops empty)) ->
  ~ In "date_created" (map fst value) ->
  fst (create_entry t value id date_created (snd (run ops empty)))
  = Throw TypeError /\
  store_get [KString t; KString id]
    (snd (create_entry t value id date_created (snd (run ops empty))))
  <> None.
Proof.
  intros R N. split.
  - rewrite create_entry_unfold. cbn [fst].
    rewrite create_indexes_for_entry_outcome.
    rewrite indexes_of_set_record_indexable.
    set (entry := spread _ value).
    assert (I : indexable t entry (snd (run ops empty)) = false).
    { destruct (indexable t entry (snd (run ops empty))) eqn:E; trivial.
      unfold indexable in E. rewrite forallb_forall in E.
      specialize (E (VString "date_created")
                    (marker_listed (store_ok_run ops) R)).
      unfold index_key_ok, entry_key_for, index_key in E.
      cbn [to_property_key to_key to_key_part] in E.
      unfold entry in E at 1.
      rewrite (obj_get_spread_other _ _ _ N) in E.
      cbn [obj_get] in E. simpl in E. discriminate E. }
    now rewrite I.
  - pose proof (create_entry_stored t value id date_created
                  (snd (run ops empty))) as H.
    unfold deref in H.
    destruct (store_get [KString t; KString id] _); [discriminate |].
    discriminate H.
Qed.

Lemma date_created_index_throws_witness :
  fst (create_entry "users" user_a "01JBX0000000000000000000ZZ"
         1730771156992
         (snd (run [CreateIndex "users" "date_created"] empty)))
  = Throw TypeError.
Proof.
  apply (proj1 (@date_created_index_throws
                  [CreateIndex "users" "date_created"] "users" user_a
                  "01JBX0000000000000000000ZZ" 1730771156992
                  ltac:(unfold registered; vm_compute; discriminate)
                  ltac:(simpl; intuition discriminate))).
Defined.

End Throws.

(** ** Where the round trip stops *)

Section RoundTripFails.

(** C8 as stated fails: with an index declared on [date_created], every
    [create_entry] on the table throws on the index key of the generated
    [Date], so no record is returned for the field set of the test suite. *)
Lemma create_then_get_counterexample :
  ~ create_then_get "users" user_a "01JBX0000000000000000000ZZ"
      1730771156992 store_with_date_index.
Proof.
  intros (r & H & _). vm_compute in H. discriminate H.
Qed.

End RoundTripFails.

(** ** Deleting a record and the index entries of its values *)

Section DeleteRecord.












End DeleteRecord.
